(** * NASA Bioscience Knowledge Graph Explorer: the query core of [app.py]

    A shallow embedding of the computations of [app.py] (entity search,
    relationship filtering, source-document counting, graph metrics) and the
    properties of them that the specification states.

    [app.py] is a script over three values produced by [load_data]: the graph
    [G], the entity table [nodes_df] and the relationship table [edges_df].
    The pandas, networkx and [re] calls it makes are embedded here as
    functions of the same name, following the libraries' implementations.

    Conventions.
    - A Python [str] is a [string]; case folding under [re.IGNORECASE]
      is modelled on 7-bit ASCII text, and a property that rests on it
      says so ([ascii7]).
    - A cell that pandas reads as missing (NaN) is [None].
    - A Python exception is a constructor of [exn]; code that can raise
      returns a [result].
    - The integer column [weight] is a [Z]; the floats of [nx.density] and
      [nx.pagerank] are exact rationals ([Q]). *)

From Stdlib Require Import String Ascii Bool Arith ZArith QArith Lia List.
From Stdlib Require Import Permutation Sorted.
Import ListNotations.

Set Implicit Arguments.

Close Scope Q_scope.
Open Scope string_scope.
Open Scope list_scope.
Open Scope nat_scope.

(* ------------------------------------------------------------------ *)
(** ** Exceptions and results *)

(** The exceptions the modelled calls raise. *)
Inductive exn : Type :=
| ValueError               (* int(float('nan')) *)
| ZeroDivisionError        (* x / 0 *)
| ReError                  (* re.error: the pattern does not compile *)
| AttributeError           (* .str on a column that holds no string *)
| NetworkXPointlessConcept (* connectivity of the null graph *)
| NetworkXError.           (* infinite path length in eccentricity *)

Inductive result (A : Type) : Type :=
| Ok (a : A)
| Raise (e : exn).

Arguments Ok {A} a.
Arguments Raise {A} e.

Definition bind {A B : Type} (r : result A) (k : A -> result B) : result B :=
  match r with
  | Ok a => k a
  | Raise e => Raise e
  end.

Notation "x <- r ;; k" := (bind r (fun x => k))
  (at level 61, r at next level, right associativity).

(** The failure kinds the specification declares (section 7).  [app.py]
    has no such type: no function of it builds one of these. *)
Inductive failure_kind : Type := NotFound | EmptyGraph | InvalidParameter.

(** What a caller of an operation of the core can observe. *)
Inductive observed (A : Type) : Type :=
| Returned (a : A)
| Failed (k : failure_kind)
| Crashed (e : exn).

Arguments Returned {A} a.
Arguments Failed {A} k.
Arguments Crashed {A} e.

(** Every [result] of the script is observed as a value or as the raw
    exception: nothing converts an exception to a [failure_kind]. *)
Definition observe {A : Type} (r : result A) : observed A :=
  match r with
  | Ok a => Returned a
  | Raise e => Crashed e
  end.

(* ------------------------------------------------------------------ *)
(** ** Strings *)

Definition chars (s : string) : list ascii := list_ascii_of_string s.

(** [c.lower()] on a 7-bit ASCII character, which is also how
    [re.IGNORECASE] folds one.  On a [str] Python folds the letters
    outside ASCII too; a character from 128 on is left as it is here, so
    what is proved of case folding is proved of 7-bit ASCII text. *)
Definition lower (c : ascii) : ascii :=
  let n := nat_of_ascii c in
  if (65 <=? n) && (n <=? 90) then ascii_of_nat (n + 32) else c.

Definition lower_all (l : list ascii) : list ascii := map lower l.

Definition ascii_eqb (a b : ascii) : bool := Ascii.eqb a b.

(** [p] is a prefix of [s]. *)
Fixpoint is_prefix (p s : list ascii) : bool :=
  match p, s with
  | [], _ => true
  | a :: p', b :: s' => ascii_eqb a b && is_prefix p' s'
  | _ :: _, [] => false
  end.

(** Python's [p in s] on strings: [p] occurs in [s] as a substring. *)
Fixpoint is_substring (p s : list ascii) : bool :=
  is_prefix p s ||
  match s with
  | [] => false
  | _ :: s' => is_substring p s'
  end.

(** The claim's matching rule: the case-folded term occurs in the
    case-folded name. *)
Definition occurs_caseless (term name : string) : bool :=
  is_substring (lower_all (chars term)) (lower_all (chars name)).

(* ------------------------------------------------------------------ *)
(** ** Regular expressions: the fragment of [re] that is modelled *)

(** Compiled patterns.  Under [re.IGNORECASE] a literal is stored lowered
    and compared with the lowered subject character. *)
Inductive regex : Type :=
| RNone                      (* matches nothing (derivatives only) *)
| REps                       (* the empty string *)
| RChar (c : ascii)          (* a literal, lowered *)
| RAny                       (* [.]: any character but a newline *)
| RSeq (r1 r2 : regex)
| RAlt (r1 r2 : regex)
| RStar (r : regex).


Fixpoint nullable (r : regex) : bool :=
  match r with
  | RNone => false
  | REps => true
  | RChar _ => false
  | RAny => false
  | RSeq r1 r2 => nullable r1 && nullable r2
  | RAlt r1 r2 => nullable r1 || nullable r2
  | RStar _ => true
  end.

(** The derivative of [r] by the subject character [x]. *)
Fixpoint deriv (x : ascii) (r : regex) : regex :=
  match r with
  | RNone => RNone
  | REps => RNone
  | RChar c => if ascii_eqb (lower x) c then REps else RNone
  | RAny => if ascii_eqb x "010"%char then RNone else REps
  | RSeq r1 r2 =>
      if nullable r1
      then RAlt (RSeq (deriv x r1) r2) (deriv x r2)
      else RSeq (deriv x r1) r2
  | RAlt r1 r2 => RAlt (deriv x r1) (deriv x r2)
  | RStar r1 => RSeq (deriv x r1) (RStar r1)
  end.

(** [pat.match(s) is not None]: some prefix of [s] is in the language. *)
Fixpoint re_match (r : regex) (s : list ascii) : bool :=
  nullable r ||
  match s with
  | [] => false
  | x :: s' => re_match (deriv x r) s'
  end.

(** [pat.search(s) is not None]: a match starts at some position of [s]. *)
Fixpoint re_search (r : regex) (s : list ascii) : bool :=
  re_match r s ||
  match s with
  | [] => false
  | _ :: s' => re_search r s'
  end.

(** *** Parsing a pattern *)

(** What [re.compile(pat, re.IGNORECASE)] does with a pattern: compiles
    it, raises [re.error], or the pattern uses syntax outside the modelled
    fragment, about which the model says nothing. *)
Inductive compiled : Type :=
| Pattern (r : regex)
| BadPattern
| Unmodelled.

(** An enclosing group whose parsing is suspended at a ["("]: its
    finished branches and the items of its current branch, both latest
    first. *)
Record frame : Type := Frame { f_alts : list regex; f_seq : list regex }.

Definition close_branch (seq : list regex) : regex :=
  fold_left (fun acc a => RSeq a acc) seq REps.

Definition close_group (alts seq : list regex) : regex :=
  fold_left (fun acc b => RAlt b acc) alts (close_branch seq).

Definition is_quantifier (c : ascii) : bool :=
  ascii_eqb c "*" || ascii_eqb c "+" || ascii_eqb c "?".

Definition is_alnum (c : ascii) : bool :=
  let n := nat_of_ascii c in
  ((48 <=? n) && (n <=? 57)) || ((65 <=? n) && (n <=? 90)) ||
  ((97 <=? n) && (n <=? 122)).

Definition quantify (q : ascii) (r : regex) : regex :=
  if ascii_eqb q "*" then RStar r
  else if ascii_eqb q "+" then RSeq r (RStar r)
  else RAlt r REps.

Definition next_is_quantifier (rest : list ascii) : bool :=
  match rest with
  | c :: _ => is_quantifier c
  | [] => false
  end.

(** The parser of [re] on the fragment: literals, [.], a backslash before
    a character that is not a letter or digit, [|], capturing groups and
    the greedy [*], [+], [?].  Anchors, classes, counted repetition, lazy
    and possessive quantifiers, [(?...)] and escapes of letters and digits
    are [Unmodelled].  The first construct met, left to right, decides. *)
Fixpoint parse (p : list ascii) (stack : list frame) (alts seq : list regex)
  : compiled :=
  match p with
  | [] =>
      match stack with
      | [] => Pattern (close_group alts seq)
      | _ :: _ => BadPattern          (* missing ), unterminated subpattern *)
      end
  | c :: rest =>
      if ascii_eqb c "(" then
        match rest with
        | "?"%char :: _ => Unmodelled
        | _ => parse rest (Frame alts seq :: stack) [] []
        end
      else if ascii_eqb c ")" then
        match stack with
        | [] => BadPattern            (* unbalanced parenthesis *)
        | f :: stack' =>
            parse rest stack' (f_alts f) (close_group alts seq :: f_seq f)
        end
      else if ascii_eqb c "|" then
        parse rest stack (close_branch seq :: alts) []
      else if is_quantifier c then
        match seq with
        | [] => BadPattern            (* nothing to repeat *)
        | a :: seq' =>
            if next_is_quantifier rest then Unmodelled
            else parse rest stack alts (quantify c a :: seq')
        end
      else if ascii_eqb c "\" then
        match rest with
        | [] => BadPattern            (* bad escape (end of pattern) *)
        | d :: rest' =>
            if is_alnum d then Unmodelled
            else parse rest' stack alts (RChar (lower d) :: seq)
        end
      else if ascii_eqb c "." then
        parse rest stack alts (RAny :: seq)
      else if ascii_eqb c "^" || ascii_eqb c "$" || ascii_eqb c "["
              || ascii_eqb c "{" then Unmodelled
      else parse rest stack alts (RChar (lower c) :: seq)
  end.

(** [re.compile(pat, flags=re.IGNORECASE)]. *)
Definition re_compile (pat : string) : compiled := parse (chars pat) [] [] [].

(* ------------------------------------------------------------------ *)
(** ** The tables *)

(** A row of [nodes_df] (nasa_nodes.csv).  [node] is the name, a
    string, or [None] where the cell is missing; [ncbi] and [go] are
    [None] where [row.get] falls back on ['Unknown']. *)
Record node_row : Type := NodeRow {
  node : option string;
  label : string;
  ncbi : option string;
  go : option string
}.

(** A row of [edges_df] (nasa_edges.csv).  [sources] is the
    comma-delimited cell, [None] where it is missing. *)
Record edge_row : Type := EdgeRow {
  subject : string;
  predicate : string;
  object : string;
  weight : Z;
  sources : option string
}.

Definition nodes_df : Type := list node_row.
Definition edges_df : Type := list edge_row.

(** [df.head(n)]. *)
Definition head {A : Type} (n : nat) (df : list A) : list A := firstn n df.

(** [df[mask]]: the rows whose mask entry is [True], in table order. *)
Fixpoint select {A : Type} (df : list A) (mask : list bool) : list A :=
  match df, mask with
  | r :: df', b :: mask' => if b then r :: select df' mask' else select df' mask'
  | _, _ => []
  end.

(* ------------------------------------------------------------------ *)
(** ** Tab 2: entity search (lines 96-127) *)

(** What a search can come to. *)
Inductive outcome (A : Type) : Type :=
| Done (a : A)          (* the call returned *)
| Raised (e : exn)      (* the call raised *)
| OutsideFragment.      (* the term is a pattern the model does not cover *)

Arguments Done {A} a.
Arguments Raised {A} e.
Arguments OutsideFragment {A}.

(** One cell of [Series.str.contains(pat, case=False, na=False)]:
    [regex=True] is the default, so the cell is searched for the compiled
    pattern; a missing cell gives [na]. *)
Definition contains_cell (r : regex) (na : bool) (cell : option string) : bool :=
  match cell with
  | Some s => re_search r (chars s)
  | None => na
  end.

Definition has_value (cell : option string) : bool :=
  match cell with
  | Some _ => true
  | None => false
  end.

(** Whether [col.str] exists.  [pd.read_csv] gives a column with a string
    in it, and a column of no row at all, the dtype [object], which has
    the accessor.  A column with rows and every cell missing is read as
    [float64], and [.str] on it raises [AttributeError]. *)
Definition is_string_column (col : list (option string)) : bool :=
  match col with
  | [] => true
  | _ :: _ => existsb has_value col
  end.

(** [col.str.contains(pat, case=False, na=na)]: the accessor [col.str]
    is evaluated first; then the pattern is compiled once, before any cell
    is looked at. *)
Definition str_contains (col : list (option string)) (pat : string) (na : bool)
  : outcome (list bool) :=
  if is_string_column col then
    match re_compile pat with
    | Pattern r => Done (map (contains_cell r na) col)
    | BadPattern => Raised ReError
    | Unmodelled => OutsideFragment
    end
  else Raised AttributeError.

(** Lines 97-99: [matches].  The cells of the [node] column are strings
    or missing. *)
Definition matches (nodes : nodes_df) (search_term : string) : outcome nodes_df :=
  match str_contains (map node nodes) search_term false with
  | Done mask => Done (select nodes mask)
  | Raised e => Raised e
  | OutsideFragment => OutsideFragment
  end.

(** [edges_df[edges_df['subject'] == node_name]] and its twin (lines
    115-116). *)
Definition related_out (edges : edges_df) (node_name : string) : edges_df :=
  filter (fun e => String.eqb (subject e) node_name) edges.

Definition related_in (edges : edges_df) (node_name : string) : edges_df :=
  filter (fun e => String.eqb (object e) node_name) edges.

(** What one expander of the result list shows (lines 105-125). *)
Record entity_match : Type := EntityMatch {
  entity : string;
  entity_label : string;
  ontology_ncbi : string;
  ontology_go : string;
  outgoingCount : nat;
  incomingCount : nat;
  sampleOutgoing : edges_df
}.

Definition get (default : string) (cell : option string) : string :=
  match cell with
  | Some v => v
  | None => default
  end.

(** The body of the loop at line 104 for a matched row.  A matched row
    has a name; the name of a row without one never reaches this point
    and is taken as the empty string. *)
Definition expander (edges : edges_df) (row : node_row) : entity_match :=
  let node_name := get "" (node row) in
  {| entity := node_name;
     entity_label := label row;
     ontology_ncbi := get "Unknown" (ncbi row);
     ontology_go := get "Unknown" (go row);
     outgoingCount := length (related_out edges node_name);
     incomingCount := length (related_in edges node_name);
     sampleOutgoing := head 5 (related_out edges node_name) |}.

(** The search as the page runs it: nothing for an empty term (line 96),
    else the number of matches (line 101) and the expanders of the first
    [limit] of them (line 104 has [limit] = 20). *)
Definition search_limit (limit : nat) (nodes : nodes_df) (edges : edges_df)
  (search_term : string) : option (outcome (nat * list entity_match)) :=
  if String.eqb search_term "" then None
  else Some
    match matches nodes search_term with
    | Done ms => Done (length ms, map (expander edges) (head limit ms))
    | Raised e => Raised e
    | OutsideFragment => OutsideFragment
    end.

Definition search : nodes_df -> edges_df -> string ->
                    option (outcome (nat * list entity_match)) :=
  search_limit 20.

(** A row of the entity table that has a name and nothing else known. *)
Definition mk_node (name : string) : node_row :=
  NodeRow (Some name) "entity" None None.

(* ------------------------------------------------------------------ *)
(** ** Python's [sorted(..., reverse=True)] *)

Section SortedReverse.
Variable A : Type.
(** [lt x y]: the key of [x] is less than the key of [y]. *)
Variable lt : A -> A -> bool.

(** [x], which stood before every element of [l], goes before the
    first element whose key is not greater than its own. *)
Fixpoint insert_desc (x : A) (l : list A) : list A :=
  match l with
  | [] => [x]
  | y :: l' => if lt x y then y :: insert_desc x l' else x :: l
  end.

(** [sorted(l, key=..., reverse=True)]: descending by key; the sort is
    stable, so elements with equal keys keep the order they have in
    [l]. *)
Definition sorted_reverse (l : list A) : list A :=
  fold_right insert_desc [] l.

(** [x] is not below [y]. *)
Definition not_below (x y : A) : Prop := lt x y = false.
End SortedReverse.

(* ------------------------------------------------------------------ *)
(** ** Tab 1: source documents (lines 76-84) *)

(** [s.split(',')], on the characters of [s]: [cur] holds the field being
    read, latest character first. *)
Fixpoint split_from (cur : list ascii) (s : list ascii) : list string :=
  match s with
  | [] => [string_of_list_ascii (rev cur)]
  | c :: s' =>
      if ascii_eqb c ","
      then string_of_list_ascii (rev cur) :: split_from [] s'
      else split_from (c :: cur) s'
  end.

Definition split_comma (s : string) : list string := split_from [] (chars s).

(** [edges_df['sources'].dropna()]. *)
Fixpoint dropna {A : Type} (col : list (option A)) : list A :=
  match col with
  | [] => []
  | Some v :: col' => v :: dropna col'
  | None :: col' => dropna col'
  end.

(** Lines 76-78: every field of every [sources] cell, in table order. *)
Definition all_sources (edges : edges_df) : list string :=
  flat_map split_comma (dropna (map sources edges)).

(** A [Counter]: the keys in the order they were first counted. *)
Definition counter : Type := list (string * nat).

Fixpoint counter_add (k : string) (c : counter) : counter :=
  match c with
  | [] => [(k, 1)]
  | (k', n) :: c' =>
      if String.eqb k' k then (k', S n) :: c' else (k', n) :: counter_add k c'
  end.

(** [Counter(l)]. *)
Definition Counter (l : list string) : counter :=
  fold_left (fun c k => counter_add k c) l [].

(** [c[k]]: a key that was never counted reads as 0. *)
Fixpoint counter_get (c : counter) (k : string) : nat :=
  match c with
  | [] => 0
  | (k', n) :: c' => if String.eqb k' k then n else counter_get c' k
  end.

(** [c.most_common(n)]: [heapq.nlargest(n, c.items(), key=itemgetter(1))],
    which is [sorted(c.items(), key=itemgetter(1), reverse=True)[:n]]. *)
Definition most_common (n : nat) (c : counter) : list (string * nat) :=
  firstn n (sorted_reverse (fun x y => snd x <? snd y) c).

(** Line 79. *)
Definition source_counts (edges : edges_df) : counter :=
  Counter (all_sources edges).

Definition is_space (c : ascii) : bool :=
  let n := nat_of_ascii c in
  ((9 <=? n) && (n <=? 13)) || ((28 <=? n) && (n <=? 32)).

Fixpoint lstrip (s : list ascii) : list ascii :=
  match s with
  | c :: s' => if is_space c then lstrip s' else s
  | [] => []
  end.

(** [s.strip()]. *)
Definition strip (s : string) : string :=
  string_of_list_ascii (rev (lstrip (rev (lstrip (chars s))))).

(** Lines 81-84: the rows of [source_df]. *)
Definition source_df (edges : edges_df) : list (string * nat) :=
  map (fun dc => (strip (fst dc), snd dc)) (most_common 10 (source_counts edges)).


(* ------------------------------------------------------------------ *)
(** ** Tab 3: relationships (lines 136-170) *)

(** [Series.max()]: [None] (NaN) on an empty column. *)
Definition series_max (col : list Z) : option Z :=
  match col with
  | [] => None
  | x :: col' => Some (fold_left Z.max col' x)
  end.

(** [int(x)] on what [Series.max()] returned: [int(float('nan'))] raises
    [ValueError]. *)
Definition py_int (x : option Z) : result Z :=
  match x with
  | Some z => Ok z
  | None => Raise ValueError
  end.

(** Line 145: [int(edges_df['weight'].max())], the slider's upper bound. *)
Definition max_weight (edges : edges_df) : result Z :=
  py_int (series_max (map weight edges)).

(** Lines 149-151. *)
Definition filtered_edges (edges : edges_df) (relationship_type : string)
  (min_weight : Z) : edges_df :=
  let filtered := filter (fun e => (min_weight <=? weight e)%Z) edges in
  if negb (String.eqb relationship_type "All")
  then filter (fun e => String.eqb (predicate e) relationship_type) filtered
  else filtered.

(** [df.take(indexer)]: the rows at the positions of [indexer], which
    are positions of [df] wherever it is called. *)
Definition take {A : Type} (df : list A) (indexer : list nat) : list A :=
  flat_map (fun i => match nth_error df i with
                     | Some r => [r]
                     | None => []
                     end) indexer.

Section SortValues.
(** [ndarray.argsort(kind='quicksort')], the kernel that
    [sort_values] calls by default.  numpy documents it as not stable
    and chooses its implementation by platform and array size, so it is
    a parameter here; what is assumed of it is stated where it is
    used. *)
Variable argsort : list Z -> list nat.

(** pandas' [nargsort(items, kind, ascending=False)] on a column
    without missing values: the column and its positions are reversed,
    sorted ascending by the kernel, and the result is reversed. *)
Definition nargsort_desc (items : list Z) : list nat :=
  let non_nans := rev items in
  let non_nan_idx := rev (seq 0 (length items)) in
  rev (map (fun j => nth j non_nan_idx 0) (argsort non_nans)).

(** [df.sort_values('weight', ascending=False)]. *)
Definition sort_values_desc (df : edges_df) : edges_df :=
  take df (nargsort_desc (map weight df)).

(** Line 162. *)
Definition consensus (filtered : edges_df) : edges_df :=
  sort_values_desc (filter (fun e => (2 <? weight e)%Z) filtered).

(** Line 164: the rows shown. *)
Definition high_confidence (filtered : edges_df) : edges_df :=
  head 10 (consensus filtered).
End SortValues.

(** What is assumed of a sorting kernel: it returns the positions of its
    argument, each once, in ascending order of the values there. *)
Definition sorts (argsort : list Z -> list nat) : Prop :=
  forall l : list Z,
    Permutation (argsort l) (seq 0 (length l)) /\
    Sorted Z.le (map (fun i => nth i l 0%Z) (argsort l)).

(** Two functions that sort, to show that the assumption can be met and
    that it leaves the order of equal values open: insertion sorts of the
    positions by value, one keeping equal values in position order, one
    reversing them.  Neither is numpy's kernel. *)
Fixpoint insert_idx (before : Z -> Z -> bool) (l : list Z) (i : nat)
  (sorted : list nat) : list nat :=
  match sorted with
  | [] => [i]
  | j :: sorted' =>
      if before (nth j l 0%Z) (nth i l 0%Z)
      then j :: insert_idx before l i sorted'
      else i :: sorted
  end.

Definition argsort_stable (l : list Z) : list nat :=
  fold_right (insert_idx Z.ltb l) [] (seq 0 (length l)).

Definition argsort_reversing (l : list Z) : list nat :=
  fold_right (insert_idx Z.leb l) [] (seq 0 (length l)).

(* ------------------------------------------------------------------ *)
(** ** The graph and tab 4: network analysis (lines 176-199) *)

(** The graph [G] that [nx.read_graphml] returns: its nodes in insertion
    order, its edges, and whether it is directed. *)
Record graph : Type := Graph {
  G_nodes : list string;
  G_edges : list (string * string);
  is_directed : bool
}.

Definition mem (v : string) (l : list string) : bool := existsb (String.eqb v) l.

(** The invariant of a networkx graph: no node twice, and both ends of an
    edge are nodes. *)
Definition nodup_b (l : list string) : bool :=
  (fix go (l : list string) : bool :=
     match l with
     | [] => true
     | v :: l' => negb (mem v l') && go l'
     end) l.

Definition well_formed (G : graph) : bool :=
  nodup_b (G_nodes G) &&
  forallb (fun e => mem (fst e) (G_nodes G) && mem (snd e) (G_nodes G)) (G_edges G).

(** [G.to_undirected()]: the same nodes and edges, direction dropped. *)
Definition to_undirected (G : graph) : graph :=
  Graph (G_nodes G) (G_edges G) false.

(** [U._adj[u]] in an undirected graph [U]: the other end of every edge
    that has [u] as an end. *)
Definition neighbors (U : graph) (u : string) : list string :=
  flat_map (fun e => (if String.eqb (fst e) u then [snd e] else []) ++
                     (if String.eqb (snd e) u then [fst e] else []))
           (G_edges U).

(** Line 31: [2*len(G.edges())/len(G.nodes())]. *)
Definition average_connections (G : graph) : result Q :=
  match G_nodes G with
  | [] => Raise ZeroDivisionError
  | _ :: _ =>
      Ok (inject_Z (2 * Z.of_nat (length (G_edges G))) /
          inject_Z (Z.of_nat (length (G_nodes G))))%Q
  end.

(** [nx.density(G)]:
    [[
    n = number_of_nodes(G); m = number_of_edges(G)
    if m == 0 or n <= 1: return 0
    d = m / (n * (n - 1))
    if not G.is_directed(): d *= 2
    return d
    ]] *)
Definition density (G : graph) : Q :=
  let n := Z.of_nat (length (G_nodes G)) in
  let m := Z.of_nat (length (G_edges G)) in
  if (m =? 0)%Z || (n <=? 1)%Z then 0%Q
  else
    let d := (inject_Z m / inject_Z (n * (n - 1)))%Q in
    if is_directed G then d else (d * 2)%Q.

(** The formula of the specification, section 4.2. *)
Definition spec_density (G : graph) : Q :=
  let n := Z.of_nat (length (G_nodes G)) in
  let m := Z.of_nat (length (G_edges G)) in
  (inject_Z (2 * m) / inject_Z (n * (n - 1)))%Q.

(** One pass of the inner loops of a breadth-first search: the candidates
    not seen yet, each once, in the order met. *)
Fixpoint discover (seen : list string) (cands : list string) : list string :=
  match cands with
  | [] => []
  | w :: cands' =>
      if mem w seen then discover seen cands'
      else w :: discover (w :: seen) cands'
  end.

(** Breadth-first search, level by level: [thislevel] is the level being
    expanded, [seen] every node met so far.  The search stops at an empty
    level; [fuel] bounds the number of levels. *)
Fixpoint bfs_levels (fuel : nat) (U : graph) (seen thislevel : list string)
  : list (list string) :=
  match fuel with
  | 0 => []
  | S fuel' =>
      match thislevel with
      | [] => []
      | _ :: _ =>
          let nextlevel := discover seen (flat_map (neighbors U) thislevel) in
          thislevel :: bfs_levels fuel' U (nextlevel ++ seen) nextlevel
      end
  end.

(** The levels of the search from [source]: level [k] holds the nodes at
    [k] hops.  A level adds a node, so there are no more levels than
    nodes. *)
Definition levels_from (U : graph) (source : string) : list (list string) :=
  bfs_levels (length (G_nodes U)) U [source] [source].

(** [_plain_bfs(U, n, source)]: the nodes reached from [source]. *)
Definition plain_bfs (U : graph) (source : string) : list string :=
  concat (levels_from U source).

(** [nx.is_connected(U)]: the search from the first node reaches as many
    nodes as the graph has; the null graph raises. *)
Definition is_connected (U : graph) : result bool :=
  match G_nodes U with
  | [] => Raise NetworkXPointlessConcept
  | source :: _ =>
      Ok (length (plain_bfs U source) =? length (G_nodes U))
  end.

(** [nx.connected_components(U)]: for every node not seen yet, in node
    order, the nodes reached from it. *)
Fixpoint components_from (U : graph) (seen : list string) (vs : list string)
  : list (list string) :=
  match vs with
  | [] => []
  | v :: vs' =>
      if mem v seen then components_from U seen vs'
      else
        let c := plain_bfs U v in
        c :: components_from U (c ++ seen) vs'
  end.

Definition connected_components (U : graph) : list (list string) :=
  components_from U [] (G_nodes U).

(** [nx.number_connected_components(U)]. *)
Definition number_connected_components (U : graph) : nat :=
  length (connected_components U).

(** [nx.eccentricity(U)] at one node: the largest hop count from it; it
    raises when the search does not reach every node. *)
Definition eccentricity (U : graph) (v : string) : result nat :=
  let levels := levels_from U v in
  if length (concat levels) =? length (G_nodes U)
  then Ok (length levels - 1)
  else Raise NetworkXError.

Fixpoint map_result {A B : Type} (f : A -> result B) (l : list A)
  : result (list B) :=
  match l with
  | [] => Ok []
  | a :: l' => b <- f a ;; bs <- map_result f l' ;; Ok (b :: bs)
  end.

(** [nx.diameter(U)]: the largest eccentricity. *)
Definition diameter (U : graph) : result nat :=
  e <- map_result (eccentricity U) (G_nodes U) ;;
  Ok (list_max e).

Inductive connectivity_result : Type :=
| Diameter (d : nat)
| ComponentCount (c : nat).

(** Lines 182-187. *)
Definition connectivity (G : graph) : result connectivity_result :=
  c <- is_connected (to_undirected G) ;;
  if c
  then d <- diameter (to_undirected G) ;; Ok (Diameter d)
  else Ok (ComponentCount (number_connected_components (to_undirected G))).

(** Line 195, over the items of the mapping that [nx.pagerank(G)]
    returned, in the order of the graph's nodes. *)
Definition score_lt (x y : string * Q) : bool := negb (Qle_bool (snd y) (snd x)).

Definition top_pagerank (pagerank : list (string * Q)) : list (string * Q) :=
  firstn 15 (sorted_reverse score_lt pagerank).

(** *** What the claims compare the graph functions with *)

(** Two nodes are joined by an edge, in either direction. *)
Definition adjacent (U : graph) (u v : string) : Prop :=
  In (u, v) (G_edges U) \/ In (v, u) (G_edges U).

(** [walk U k u v]: [v] is [k] hops from [u]. *)
Inductive walk (U : graph) : nat -> string -> string -> Prop :=
| walk_here u : walk U 0 u u
| walk_step k u v w : walk U k u v -> adjacent U v w -> walk U (S k) u w.

(** Two nodes are in the same connected component. *)
Definition joined (U : graph) (u v : string) : Prop := exists k, walk U k u v.

(** The hop count of a shortest path. *)
Definition distance (U : graph) (u v : string) (k : nat) : Prop :=
  walk U k u v /\ forall j, walk U j u v -> k <= j.

(** The state of the search from [s] when level [k] is about to be
    expanded: [seen] holds the nodes within [k] hops, once each, and
    [level] the nodes at exactly [k] hops. *)
Definition bfs_inv (U : graph) (s : string) (k : nat)
  (seen level : list string) : Prop :=
  NoDup seen /\
  (forall v, In v seen <-> exists j, j <= k /\ walk U j s v) /\
  (forall v, In v level <-> distance U s v k).

(** [c] is the number of connected components of [U]: there are [c]
    nodes, no two of them joined, to one of which every node is joined. *)
Definition component_count (U : graph) (c : nat) : Prop :=
  exists reps,
    length reps = c /\
    incl reps (G_nodes U) /\
    ForallOrdPairs (fun r r' => ~ joined U r r') reps /\
    forall v, In v (G_nodes U) -> exists r, In r reps /\ joined U r v.

(** [d] is the longest shortest-path hop count of [U]: any two nodes are
    at a distance of at most [d], and some two are at distance [d]. *)
Definition longest_shortest_path (U : graph) (d : nat) : Prop :=
  (forall u v, In u (G_nodes U) -> In v (G_nodes U) ->
               exists k, k <= d /\ distance U u v k) /\
  (exists u v, In u (G_nodes U) /\ In v (G_nodes U) /\ distance U u v d).

(** A set of nodes that holds, with a node, every node joined to it. *)
Definition closed (U : graph) (seen : list string) : Prop :=
  forall v w, In v seen -> joined U v w -> In w seen.

(** Lexicographic order on strings, by character code: Python's [<] on
    [str]. *)
Fixpoint str_ltb (a b : list ascii) : bool :=
  match a, b with
  | _, [] => false
  | [], _ :: _ => true
  | x :: a', y :: b' =>
      (nat_of_ascii x <? nat_of_ascii y) ||
      ((nat_of_ascii x =? nat_of_ascii y) && str_ltb a' b')
  end.

(** The order the specification gives [topByPageRank]: descending by
    score and, between equal scores, ascending by name. *)
Definition precedes_by_name (x y : string * Q) : bool :=
  negb (Qle_bool (snd x) (snd y)) ||
  (Qeq_bool (snd x) (snd y) && negb (str_ltb (chars (fst y)) (chars (fst x)))).

Fixpoint by_score_then_name (l : list (string * Q)) : bool :=
  match l with
  | x :: ((y :: _) as l') => precedes_by_name x y && by_score_then_name l'
  | _ => true
  end.

(** The rows the specification's [filter] keeps. *)
Definition keeps (relationship_type : string) (min_weight : Z) (e : edge_row)
  : bool :=
  (min_weight <=? weight e)%Z &&
  (String.eqb relationship_type "All" || String.eqb (predicate e) relationship_type).

(** The specification's [maxWeight], as the page can observe it. *)
Definition maxWeight (edges : edges_df) : observed Z := observe (max_weight edges).




(** The list as C3 words it: the relationships of weight above 2,
    descending by weight, those of equal weight in the order they have in
    [filtered] (a stable sort), the first 10 of them. *)
Definition highConfidence (filtered : edges_df) : edges_df :=
  firstn 10 (sorted_reverse (fun x y => (weight x <? weight y)%Z)
               (filter (fun e => (2 <? weight e)%Z) filtered)).

(** Twenty relationships, of weights 3 and 4 in turn. *)
Definition twenty_relationships : edges_df :=
  [EdgeRow "G01" "regulates" "T" 3 None; EdgeRow "G02" "regulates" "T" 4 None;
   EdgeRow "G03" "regulates" "T" 3 None; EdgeRow "G04" "regulates" "T" 4 None;
   EdgeRow "G05" "regulates" "T" 3 None; EdgeRow "G06" "regulates" "T" 4 None;
   EdgeRow "G07" "regulates" "T" 3 None; EdgeRow "G08" "regulates" "T" 4 None;
   EdgeRow "G09" "regulates" "T" 3 None; EdgeRow "G10" "regulates" "T" 4 None;
   EdgeRow "G11" "regulates" "T" 3 None; EdgeRow "G12" "regulates" "T" 4 None;
   EdgeRow "G13" "regulates" "T" 3 None; EdgeRow "G14" "regulates" "T" 4 None;
   EdgeRow "G15" "regulates" "T" 3 None; EdgeRow "G16" "regulates" "T" 4 None;
   EdgeRow "G17" "regulates" "T" 3 None; EdgeRow "G18" "regulates" "T" 4 None;
   EdgeRow "G19" "regulates" "T" 3 None; EdgeRow "G20" "regulates" "T" 4 None].




(* ------------------------------------------------------------------ *)
(** ** The sidebar (lines 34-38) *)

(** [G.degree(v)]: the number of edge ends at [v]; an edge from [v] to
    itself has both its ends there. *)
Definition degree (G : graph) (v : string) : nat :=
  length (filter (fun e => String.eqb (fst e) v) (G_edges G)) +
  length (filter (fun e => String.eqb (snd e) v) (G_edges G)).

(** Line 34: [dict(G.degree())], in node order. *)
Definition degree_dict (G : graph) : list (string * nat) :=
  map (fun v => (v, degree G v)) (G_nodes G).

(** Line 35. *)
Definition top_entities (G : graph) : list (string * nat) :=
  firstn 5 (sorted_reverse (fun x y => snd x <? snd y) (degree_dict G)).

(* ------------------------------------------------------------------ *)
(** ** Tab 1: the two charts (lines 55 and 66) *)

Section ValueCounts.
(** The kernel of [sort_values], as in tab 3. *)
Variable argsort : list Z -> list nat.

(** [col.value_counts()]: the values that are not missing are counted,
    and the counts sorted by [Series.sort_values(ascending=False)]. *)
Definition value_counts (col : list (option string)) : list (string * nat) :=
  let counts := Counter (dropna col) in
  take counts (nargsort_desc argsort (map (fun kc => Z.of_nat (snd kc)) counts)).

(** Line 55. *)
Definition entity_types (nodes : nodes_df) : list (string * nat) :=
  value_counts (map (fun row => Some (label row)) nodes).

(** Line 66. *)
Definition rel_types (edges : edges_df) : list (string * nat) :=
  head 10 (value_counts (map (fun e => Some (predicate e)) edges)).
End ValueCounts.

(* ------------------------------------------------------------------ *)
(** ** Tab 3: the choices of the type filter (lines 136-139) *)

Section Sorted.
Variable A : Type.
(** [lt x y]: [x < y]. *)
Variable lt : A -> A -> bool.

Fixpoint insert_asc (x : A) (l : list A) : list A :=
  match l with
  | [] => [x]
  | y :: l' => if lt y x then y :: insert_asc x l' else x :: l
  end.

(** [sorted(l)]: ascending, equal elements in the order they have in
    [l]. *)
Definition sorted (l : list A) : list A := fold_right insert_asc [] l.
End Sorted.

(** Python's [<] on [str]. *)
Definition str_lt (a b : string) : bool := str_ltb (chars a) (chars b).

(** [col.unique()]: the values of the column, each once, in the order
    met. *)
Definition unique (col : list string) : list string := discover [] col.

(** Line 138: the options of the selectbox. *)
Definition relationship_options (edges : edges_df) : list string :=
  "All" :: sorted str_lt (unique (map predicate edges)).

(** *** What the properties of these are stated with *)

(** A string without leading or trailing whitespace. *)
Definition trimmed (s : list ascii) : Prop :=
  (forall c t, s = c :: t -> is_space c = false) /\
  (forall c t, s = t ++ [c] -> is_space c = false).

(** The graph with every edge turned round. *)
Definition reversed (G : graph) : graph :=
  Graph (G_nodes G) (map (fun e => (snd e, fst e)) (G_edges G)) (is_directed G).

(* ================================================================== *)
(** * Properties *)

(* ------------------------------------------------------------------ *)
(** ** Lists *)

Lemma In_firstn (A : Type) (n : nat) (l : list A) (x : A) :
  In x (firstn n l) -> In x l.
Proof.
  revert n. induction l as [|y l IH]; intros [|n]; simpl; try tauto.
  intros [->|H]; [now left | right; now apply (IH n)].
Qed.

Lemma StronglySorted_firstn (A : Type) (R : A -> A -> Prop) (n : nat) (l : list A) :
  StronglySorted R l -> StronglySorted R (firstn n l).
Proof.
  revert n. induction l as [|x l IH]; intros [|n] Hs; simpl; try constructor.
  - inversion Hs; subst. now apply IH.
  - inversion Hs as [|? ? _ Hx]; subst.
    rewrite Forall_forall in *. intros y Hy. apply Hx.
    now apply In_firstn in Hy.
Qed.

Lemma StronglySorted_app_le (A : Type) (R : A -> A -> Prop) (l1 l2 : list A) :
  StronglySorted R (l1 ++ l2) ->
  forall x y, In x l1 -> In y l2 -> R x y.
Proof.
  induction l1 as [|a l1 IH]; simpl; intros Hs x y Hx Hy; [contradiction|].
  inversion Hs as [|? ? Hl Ha]; subst.
  destruct Hx as [<-|Hx].
  - rewrite Forall_forall in Ha. apply Ha, in_or_app. now right.
  - now apply IH.
Qed.

Lemma StronglySorted_impl (A : Type) (R S : A -> A -> Prop) (l : list A) :
  (forall x y, R x y -> S x y) -> StronglySorted R l -> StronglySorted S l.
Proof.
  intros H. induction 1 as [|x l Hs IH Hx]; constructor; [exact IH|].
  eapply Forall_impl; [|exact Hx]. intros y. apply H.
Qed.

Lemma StronglySorted_app (A : Type) (R : A -> A -> Prop) (l1 l2 : list A) :
  StronglySorted R l1 -> StronglySorted R l2 ->
  (forall x y, In x l1 -> In y l2 -> R x y) ->
  StronglySorted R (l1 ++ l2).
Proof.
  induction 1 as [|x l1 Hs IH Hx]; intros H2 H; simpl; [exact H2|].
  constructor.
  - apply IH; [exact H2|]. intros a b Ha Hb. apply H; [now right | exact Hb].
  - apply Forall_app. split; [exact Hx|].
    rewrite Forall_forall. intros y Hy. apply H; [now left | exact Hy].
Qed.

Lemma StronglySorted_rev (A : Type) (R : A -> A -> Prop) (l : list A) :
  StronglySorted R l -> StronglySorted (fun x y => R y x) (rev l).
Proof.
  induction 1 as [|x l Hs IH Hx]; simpl; [constructor|].
  apply StronglySorted_app; [exact IH | repeat constructor|].
  intros a b Ha [<-|[]]. rewrite Forall_forall in Hx. apply Hx.
  now apply in_rev.
Qed.

Lemma StronglySorted_map (A B : Type) (f : A -> B) (R : B -> B -> Prop)
  (l : list A) :
  StronglySorted R (map f l) -> StronglySorted (fun x y => R (f x) (f y)) l.
Proof.
  induction l as [|x l IH]; simpl; intros H; [constructor|].
  inversion H as [|? ? Hs Hx]; subst. constructor; [now apply IH|].
  rewrite Forall_forall in *. intros y Hy. apply Hx. now apply in_map.
Qed.

Lemma StronglySorted_map_inv (A B : Type) (f : A -> B) (R : B -> B -> Prop)
  (l : list A) :
  StronglySorted (fun x y => R (f x) (f y)) l -> StronglySorted R (map f l).
Proof.
  induction 1 as [|x l Hs IH Hx]; simpl; constructor; [exact IH|].
  rewrite Forall_forall in *. intros y Hy.
  apply in_map_iff in Hy. destruct Hy as [a [<- Ha]]. now apply Hx.
Qed.

Lemma map_nth_seq (A : Type) (d : A) (l : list A) :
  map (fun i => nth i l d) (seq 0 (length l)) = l.
Proof.
  induction l as [|x l IH]; [reflexivity|].
  cbn [length seq map nth]. f_equal.
  rewrite <- seq_shift, map_map. exact IH.
Qed.

Lemma filter_filter (A : Type) (p q : A -> bool) (l : list A) :
  filter p (filter q l) = filter (fun x => q x && p x) l.
Proof.
  induction l as [|x l IH]; simpl; [reflexivity|].
  destruct (q x); simpl; [destruct (p x)|]; now rewrite IH.
Qed.

Lemma filter_all (A : Type) (p : A -> bool) (l : list A) :
  (forall x, In x l -> p x = true) -> filter p l = l.
Proof.
  induction l as [|x l IH]; simpl; intros H; [reflexivity|].
  rewrite (H x (or_introl eq_refl)). f_equal. apply IH. intros; apply H; now right.
Qed.


Lemma select_map (A : Type) (f : A -> bool) (l : list A) :
  select l (map f l) = filter f l.
Proof.
  induction l as [|x l IH]; simpl; [reflexivity|].
  destruct (f x); now rewrite IH.
Qed.



Lemma list_max_In (l : list nat) : l <> [] -> In (list_max l) l.
Proof.
  induction l as [|x l IH]; [congruence|]. intros _.
  change (list_max (x :: l)) with (Nat.max x (list_max l)).
  destruct l as [|y l].
  - simpl. left. lia.
  - destruct (Nat.max_spec x (list_max (y :: l))) as [[_ ->]|[_ ->]].
    + right. apply IH. discriminate.
    + now left.
Qed.

(* ------------------------------------------------------------------ *)
(** ** [sorted(..., reverse=True)] is a stable descending sort *)

Section SortedReverseFacts.
Variable A : Type.
Variable lt : A -> A -> bool.

Lemma insert_desc_perm (x : A) (l : list A) :
  Permutation (insert_desc lt x l) (x :: l).
Proof.
  induction l as [|y l IH]; simpl.
  - apply Permutation_refl.
  - destruct (lt x y).
    + eapply Permutation_trans; [apply perm_skip, IH | apply perm_swap].
    + apply Permutation_refl.
Qed.

Lemma sorted_reverse_perm (l : list A) : Permutation (sorted_reverse lt l) l.
Proof.
  induction l as [|x l IH]; simpl.
  - constructor.
  - eapply Permutation_trans; [apply insert_desc_perm | now apply perm_skip].
Qed.

Hypothesis lt_asym : forall x y, lt x y = true -> lt y x = false.
Hypothesis not_below_trans :
  forall x y z, not_below lt x y -> not_below lt y z -> not_below lt x z.

Lemma insert_desc_sorted (x : A) (l : list A) :
  StronglySorted (not_below lt) l -> StronglySorted (not_below lt) (insert_desc lt x l).
Proof.
  induction l as [|y l IH]; simpl; intros Hs.
  - repeat constructor.
  - inversion Hs as [|? ? Hl Hy]; subst.
    destruct (lt x y) eqn:E.
    + constructor; [now apply IH|].
      rewrite Forall_forall in *. intros z Hz.
      apply (Permutation_in _ (insert_desc_perm x l)) in Hz.
      destruct Hz as [<-|Hz]; [now apply lt_asym | now apply Hy].
    + constructor; [assumption|].
      constructor; [exact E|].
      rewrite Forall_forall in *. intros z Hz.
      apply not_below_trans with y; [exact E | now apply Hy].
Qed.

Lemma sorted_reverse_sorted (l : list A) :
  StronglySorted (not_below lt) (sorted_reverse lt l).
Proof.
  induction l as [|x l IH]; simpl.
  - constructor.
  - now apply insert_desc_sorted.
Qed.

(** Stability: the elements of a class [p] whose members are never
    below one another come out in the order they went in. *)
Lemma insert_desc_filter (p : A -> bool) (x : A) (l : list A) :
  (forall a b, p a = true -> p b = true -> lt a b = false) ->
  filter p (insert_desc lt x l) = filter p (x :: l).
Proof.
  intros Hp. induction l as [|y l IH]; simpl; [reflexivity|].
  destruct (lt x y) eqn:E; [|reflexivity].
  simpl in *. rewrite IH.
  destruct (p x) eqn:Px, (p y) eqn:Py; try reflexivity.
  rewrite (Hp x y Px Py) in E. discriminate.
Qed.

Lemma sorted_reverse_stable (p : A -> bool) (l : list A) :
  (forall a b, p a = true -> p b = true -> lt a b = false) ->
  filter p (sorted_reverse lt l) = filter p l.
Proof.
  intros Hp. induction l as [|x l IH]; simpl; [reflexivity|].
  rewrite (insert_desc_filter _ _ _ Hp). simpl. now rewrite IH.
Qed.
End SortedReverseFacts.

(* ------------------------------------------------------------------ *)
(** ** The matcher decides the language of a pattern *)

Lemma ascii_eqb_eq (a b : ascii) : ascii_eqb a b = true <-> a = b.
Proof. apply Ascii.eqb_eq. Qed.

Lemma ascii_eqb_refl (a : ascii) : ascii_eqb a a = true.
Proof. now apply ascii_eqb_eq. Qed.














(* ------------------------------------------------------------------ *)
(** ** Tab 2: entity search *)

(** [matches] is the compiled pattern searched for in every name, where
    the name column has the accessor. *)
Lemma matches_compiled (nodes : nodes_df) (term : string) :
  matches nodes term =
  if is_string_column (map node nodes) then
    match re_compile term with
    | Pattern r => Done (filter (fun row => contains_cell r false (node row)) nodes)
    | BadPattern => Raised ReError
    | Unmodelled => OutsideFragment
    end
  else Raised AttributeError.
Proof.
  unfold matches, str_contains.
  destruct (is_string_column (map node nodes)); [|reflexivity].
  destruct (re_compile term); try reflexivity.
  rewrite map_map. now rewrite select_map.
Qed.





Lemma length_filter_count_occ (A : Type) (f : A -> string) (k : string) (l : list A) :
  length (filter (fun e => String.eqb (f e) k) l) =
  count_occ string_dec (map f l) k.
Proof.
  induction l as [|e l IH]; simpl; [reflexivity|].
  destruct (string_dec (f e) k) as [E|E].
  - rewrite E, String.eqb_refl. simpl. now rewrite IH.
  - apply String.eqb_neq in E. now rewrite E.
Qed.

(** C9: whatever the limit on the rows shown, the counts shown for a
    matched entity are the numbers of rows of the whole relationship table
    that have its name as subject and as object; an entity alone in the
    table, with no relationship, is found with both counts 0. *)
Theorem search_counts_whole_table :
  (forall (limit : nat) (nodes : nodes_df) (edges : edges_df) (term : string)
          (n : nat) (ms : list entity_match) (m : entity_match),
     search_limit limit nodes edges term = Some (Done (n, ms)) ->
     In m ms ->
     (exists row, In row nodes /\ node row = Some (entity m)) /\
     outgoingCount m = count_occ string_dec (map subject edges) (entity m) /\
     incomingCount m = count_occ string_dec (map object edges) (entity m)) /\
  (forall (lbl : string) (nc g : option string),
     search [NodeRow (Some "D") lbl nc g] [] "D" =
     Some (Done (1, [EntityMatch "D" lbl (get "Unknown" nc) (get "Unknown" g)
                                 0 0 []]))).
Proof.
  split; [|reflexivity].
  intros limit nodes edges term n ms m H Hin.
  unfold search_limit in H. destruct (String.eqb term ""); [discriminate|].
  rewrite matches_compiled in H.
  destruct (is_string_column (map node nodes)); [|discriminate].
  destruct (re_compile term) as [r| |]; try discriminate.
  injection H as _ <-.
  apply in_map_iff in Hin. destruct Hin as [row [<- Hrow]].
  unfold head in Hrow. apply In_firstn in Hrow.
  apply filter_In in Hrow. destruct Hrow as [Hrow Hc].
  unfold expander. simpl. split; [|split].
  - exists row. split; [exact Hrow|].
    destruct (node row); [reflexivity | discriminate].
  - apply length_filter_count_occ.
  - apply length_filter_count_occ.
Qed.

Lemma search_counts_whole_table_witness :
  let edges := [EdgeRow "A" "regulates" "B" 3 None;
                EdgeRow "A" "interacts" "C" 5 None;
                EdgeRow "B" "regulates" "A" 1 None] in
  let m := EntityMatch "A" "gene" "Unknown" "Unknown" 2 1
             [EdgeRow "A" "regulates" "B" 3 None;
              EdgeRow "A" "interacts" "C" 5 None] in
  (exists row, In row [NodeRow (Some "A") "gene" None None; mk_node "B"] /\
               node row = Some (entity m)) /\
  outgoingCount m = count_occ string_dec (map subject edges) (entity m) /\
  incomingCount m = count_occ string_dec (map object edges) (entity m).
Proof.
  intros edges m.
  apply (proj1 search_counts_whole_table 1
           [NodeRow (Some "A") "gene" None None; mk_node "B"] edges "a" 1 [m] m).
  - reflexivity.
  - now left.
Defined.

(** *** The search term is a regular expression *)

(** C1 at three terms with special characters.  An unbalanced
    parenthesis is no pattern: the search raises whatever the tables hold,
    [re.error] on every table of names (and [AttributeError], before the
    term is looked at, where the name column holds no string).  A dot
    stands for any character: ["a.c"] finds the entity ["abc"], in whose
    name it does not occur.  Parentheses group: the entity ["p53 (TP53)"]
    is not found by its own name. *)
Theorem search_term_is_compiled_as_pattern :
  (forall (nodes : nodes_df) (edges : edges_df),
     search nodes edges "(" =
     Some (Raised (if is_string_column (map node nodes)
                   then ReError else AttributeError))) /\
  (occurs_caseless "a.c" "abc" = false /\
   matches [mk_node "abc"] "a.c" = Done [mk_node "abc"]) /\
  (occurs_caseless "p53 (TP53)" "p53 (TP53)" = true /\
   matches [mk_node "p53 (TP53)"] "p53 (TP53)" = Done []).
Proof.
  split; [|repeat split].
  intros nodes edges. unfold search, search_limit. rewrite matches_compiled.
  now destruct (is_string_column (map node nodes)).
Qed.

(** *** Terms without special characters *)







(** The search does not tell ["Protein"] from ["protein"]. *)
Theorem search_Protein_protein (nodes : nodes_df) (edges : edges_df) :
  search nodes edges "Protein" = search nodes edges "protein".
Proof.
  unfold search, search_limit, matches, str_contains.
  change (re_compile "Protein") with (re_compile "protein"). reflexivity.
Qed.

(* ------------------------------------------------------------------ *)
(** ** Tab 1: counting source documents *)

Lemma counter_get_add (k k' : string) (c : counter) :
  counter_get (counter_add k' c) k =
  counter_get c k + (if String.eqb k' k then 1 else 0).
Proof.
  induction c as [|[a n] c IH]; simpl.
  - destruct (String.eqb k' k); reflexivity.
  - destruct (String.eqb a k') eqn:E1; simpl.
    + apply String.eqb_eq in E1. subst a.
      destruct (String.eqb k' k); lia.
    + destruct (String.eqb a k) eqn:E2; [|exact IH].
      apply String.eqb_eq in E2. subst a.
      rewrite String.eqb_sym, E1. lia.
Qed.

Lemma counter_get_fold (l : list string) (c : counter) (k : string) :
  counter_get (fold_left (fun c k => counter_add k c) l c) k =
  counter_get c k + count_occ string_dec l k.
Proof.
  revert c. induction l as [|x l IH]; intros c; simpl; [lia|].
  rewrite IH, counter_get_add.
  destruct (string_dec x k) as [->|Hne].
  - rewrite String.eqb_refl. lia.
  - apply String.eqb_neq in Hne. rewrite Hne. lia.
Qed.





(* ------------------------------------------------------------------ *)
(** ** Tab 3: the slider's bound and the filter *)

Lemma fold_left_max_ge (l : list Z) (a : Z) :
  (a <= fold_left Z.max l a)%Z /\
  Forall (fun x => (x <= fold_left Z.max l a)%Z) l.
Proof.
  revert a. induction l as [|x l IH]; intros a; simpl.
  - split; [lia | constructor].
  - destruct (IH (Z.max a x)) as [H1 H2]. split; [lia|].
    constructor; [lia | exact H2].
Qed.

Lemma fold_left_max_in (l : list Z) (a : Z) :
  fold_left Z.max l a = a \/ In (fold_left Z.max l a) l.
Proof.
  revert a. induction l as [|x l IH]; intros a; simpl; [now left|].
  destruct (IH (Z.max a x)) as [H|H]; [|now right; right].
  rewrite H. destruct (Z.max_spec a x) as [[_ ->]|[_ ->]]; [right|]; now left.
Qed.

Lemma series_max_spec (col : list Z) (m : Z) :
  series_max col = Some m -> In m col /\ Forall (fun x => (x <= m)%Z) col.
Proof.
  destruct col as [|x col]; simpl; [discriminate|].
  intros [= <-]. destruct (fold_left_max_ge col x) as [H1 H2].
  split; [|now constructor].
  destruct (fold_left_max_in col x) as [->|H]; [now left | now right].
Qed.

(** C4, as the code has it: on an empty relationship table the bound of
    the slider is not a typed failure but the [ValueError] that [int]
    raises on NaN, unhandled; on a table with a row it is the largest
    weight of the table. *)
Theorem max_weight_empty_raises_else_maximum :
  maxWeight [] = Crashed ValueError /\
  forall edges : edges_df, edges <> [] ->
    exists m, maxWeight edges = Returned m /\
              (exists e, In e edges /\ weight e = m) /\
              (forall e, In e edges -> (weight e <= m)%Z).
Proof.
  split; [reflexivity|].
  intros edges Hne. unfold maxWeight, max_weight.
  destruct (series_max (map weight edges)) as [m|] eqn:E.
  - exists m. split; [reflexivity|].
    apply series_max_spec in E. destruct E as [Hin Hall]. split.
    + apply in_map_iff in Hin. destruct Hin as [e [He Hin]]. now exists e.
    + intros e He. rewrite Forall_forall in Hall. apply Hall. now apply in_map.
  - destruct edges; [congruence | discriminate].
Qed.

Lemma max_weight_empty_raises_else_maximum_witness :
  let edges := [EdgeRow "A" "regulates" "B" 3 None;
                EdgeRow "B" "regulates" "C" 1 None;
                EdgeRow "A" "interacts" "C" 5 None] in
  exists m, maxWeight edges = Returned m /\
            (exists e, In e edges /\ weight e = m) /\
            (forall e, In e edges -> (weight e <= m)%Z).
Proof.
  intros edges.
  apply (proj2 max_weight_empty_raises_else_maximum edges). discriminate.
Defined.

(** C4 as stated fails: the empty table does not give the declared
    failure [EmptyGraph]. *)
Lemma max_weight_empty_not_EmptyGraph : maxWeight [] <> Failed EmptyGraph.
Proof. discriminate. Qed.

(** C5, as the code has it: the sentinel of the type filter is ["All"].
    With it and a minimum strength of 1 the filter returns the table as it
    is (every weight being at least 1); in general it returns the rows
    that [keeps] holds of, in table order. *)
Theorem filtered_edges_keeps :
  (forall edges : edges_df,
     (forall e, In e edges -> (1 <= weight e)%Z) ->
     filtered_edges edges "All" 1 = edges) /\
  (forall (edges : edges_df) (relationship_type : string) (min_weight : Z),
     filtered_edges edges relationship_type min_weight =
     filter (keeps relationship_type min_weight) edges).
Proof.
  assert (G : forall edges t w,
             filtered_edges edges t w = filter (keeps t w) edges).
  { intros edges t w. unfold filtered_edges, keeps.
    destruct (String.eqb t "All"); simpl.
    - apply filter_ext. intros e. now rewrite andb_true_r.
    - apply filter_filter. }
  split; [|exact G].
  intros edges H. rewrite G. apply filter_all. intros e He.
  unfold keeps. simpl. rewrite andb_true_r. apply Z.leb_le. now apply H.
Qed.

Lemma filtered_edges_keeps_witness :
  let edges := [EdgeRow "A" "regulates" "B" 3 None;
                EdgeRow "B" "regulates" "C" 1 None;
                EdgeRow "A" "interacts" "C" 5 None] in
  filtered_edges edges "All" 1 = edges.
Proof.
  intros edges. apply (proj1 filtered_edges_keeps edges).
  intros e [<-|[<-|[<-|[]]]]; simpl; lia.
Defined.

(** C5 as stated fails: the string ["all"] is not the sentinel, it
    selects the relationships whose predicate is ["all"]. *)
Lemma filtered_edges_lowercase_all_not_identity :
  let edges := [EdgeRow "A" "all" "B" 1 None; EdgeRow "A" "regulates" "C" 1 None] in
  filtered_edges edges "all" 1 <> edges.
Proof. simpl. discriminate. Qed.

(* ------------------------------------------------------------------ *)
(** ** Tab 3: the high-confidence list *)

Lemma take_shift (A : Type) (x : A) (df : list A) (idx : list nat) :
  take (x :: df) (map S idx) = take df idx.
Proof.
  unfold take. induction idx as [|i idx IH]; simpl; [reflexivity|].
  now rewrite IH.
Qed.

Lemma take_all (A : Type) (df : list A) : take df (seq 0 (length df)) = df.
Proof.
  induction df as [|x df IH]; [reflexivity|].
  cbn [length seq]. rewrite <- seq_shift.
  change (take (x :: df) (0 :: map S (seq 0 (length df))))
    with (x :: take (x :: df) (map S (seq 0 (length df)))).
  now rewrite take_shift, IH.
Qed.

Lemma take_perm (A : Type) (df : list A) (idx : list nat) :
  Permutation idx (seq 0 (length df)) -> Permutation (take df idx) df.
Proof.
  intros H. rewrite <- (take_all df) at 2. unfold take.
  now apply Permutation_flat_map.
Qed.

Lemma take_map_nth (df : edges_df) (idx : list nat) :
  (forall i, In i idx -> i < length df) ->
  map weight (take df idx) = map (fun i => nth i (map weight df) 0%Z) idx.
Proof.
  unfold take. induction idx as [|i idx IH]; intros H; simpl; [reflexivity|].
  rewrite map_app, IH by (intros j Hj; apply H; now right). f_equal.
  assert (Hi : i < length df) by (apply H; now left).
  destruct (nth_error df i) as [r|] eqn:E.
  - simpl. f_equal. symmetry. apply nth_error_nth. now apply map_nth_error.
  - apply nth_error_None in E. lia.
Qed.

Section SortValuesFacts.
Variable argsort : list Z -> list nat.
Hypothesis argsort_sorts : sorts argsort.

Lemma nargsort_desc_perm (items : list Z) :
  Permutation (nargsort_desc argsort items) (seq 0 (length items)).
Proof.
  unfold nargsort_desc.
  destruct (argsort_sorts (rev items)) as [Hp _]. rewrite length_rev in Hp.
  eapply Permutation_trans; [apply Permutation_sym, Permutation_rev|].
  eapply Permutation_trans; [apply Permutation_map, Hp|].
  pose proof (map_nth_seq 0 (rev (seq 0 (length items)))) as E.
  rewrite length_rev, length_seq in E. rewrite E.
  apply Permutation_sym, Permutation_rev.
Qed.

Lemma nargsort_desc_values (items : list Z) :
  map (fun i => nth i items 0%Z) (nargsort_desc argsort items) =
  rev (map (fun j => nth j (rev items) 0%Z) (argsort (rev items))).
Proof.
  unfold nargsort_desc. rewrite map_rev, map_map. f_equal.
  apply map_ext_in. intros j Hj.
  destruct (argsort_sorts (rev items)) as [Hp _]. rewrite length_rev in Hp.
  apply (Permutation_in _ Hp), in_seq in Hj.
  rewrite rev_nth by (rewrite length_seq; lia). rewrite length_seq.
  rewrite seq_nth by lia. rewrite rev_nth by lia. reflexivity.
Qed.

Lemma sort_values_desc_perm (df : edges_df) :
  Permutation (sort_values_desc argsort df) df.
Proof.
  unfold sort_values_desc. apply take_perm.
  rewrite <- (length_map weight df). apply nargsort_desc_perm.
Qed.

Lemma sort_values_desc_sorted (df : edges_df) :
  StronglySorted (fun x y => (weight y <= weight x)%Z) (sort_values_desc argsort df).
Proof.
  apply StronglySorted_map with (f := weight) (R := fun a b => (b <= a)%Z).
  unfold sort_values_desc. rewrite take_map_nth.
  - rewrite nargsort_desc_values. apply StronglySorted_rev.
    apply Sorted_StronglySorted; [intros a b c; apply Z.le_trans|].
    apply argsort_sorts.
  - intros i Hi. apply (Permutation_in _ (nargsort_desc_perm _)), in_seq in Hi.
    rewrite length_map in Hi. lia.
Qed.
End SortValuesFacts.

(** C3, as the code has it, for whatever sorting kernel [sort_values]
    runs: the list holds 10 relationships, or all those of weight above 2
    when they are fewer; each is a filtered relationship of weight above
    2, and they descend by weight; they are the head of a rearrangement
    of all filtered relationships of weight above 2, and none left out
    weighs more than one listed.  The order among equal weights is the
    kernel's. *)
Theorem high_confidence_sorted (argsort : list Z -> list nat)
  (filtered : edges_df) :
  sorts argsort ->
  length (high_confidence argsort filtered) <= 10 /\
  length (high_confidence argsort filtered) =
    Nat.min 10 (length (filter (fun e => (2 <? weight e)%Z) filtered)) /\
  (forall e, In e (high_confidence argsort filtered) ->
             In e filtered /\ (2 < weight e)%Z) /\
  StronglySorted (fun x y => (weight y <= weight x)%Z)
                 (high_confidence argsort filtered) /\
  exists rest,
    Permutation (high_confidence argsort filtered ++ rest)
                (filter (fun e => (2 <? weight e)%Z) filtered) /\
    forall x y, In x (high_confidence argsort filtered) -> In y rest ->
                (weight y <= weight x)%Z.
Proof.
  intros Hs. unfold high_confidence, head, consensus.
  set (above := filter (fun e => (2 <? weight e)%Z) filtered).
  pose proof (sort_values_desc_perm Hs above) as Hp.
  pose proof (sort_values_desc_sorted Hs above) as Hd.
  split; [apply firstn_le_length|]. split; [|split; [|split]].
  - rewrite length_firstn. now rewrite (Permutation_length Hp).
  - intros e He. apply In_firstn in He. apply (Permutation_in _ Hp) in He.
    apply filter_In in He. destruct He as [He Hw]. split; [exact He|].
    now apply Z.ltb_lt.
  - now apply StronglySorted_firstn.
  - exists (skipn 10 (sort_values_desc argsort above)).
    rewrite firstn_skipn. split; [exact Hp|].
    rewrite <- (firstn_skipn 10 (sort_values_desc argsort above)) in Hd.
    intros x y. exact (StronglySorted_app_le _ _ Hd x y).
Qed.

Section InsertionKernels.
Variable before : Z -> Z -> bool.
Hypothesis before_le : forall a b, before a b = true -> (a <= b)%Z.
Hypothesis not_before_ge : forall a b, before a b = false -> (b <= a)%Z.
Variable l : list Z.

Lemma insert_idx_perm (i : nat) (sorted : list nat) :
  Permutation (insert_idx before l i sorted) (i :: sorted).
Proof.
  induction sorted as [|j sorted IH]; simpl; [apply Permutation_refl|].
  destruct (before (nth j l 0%Z) (nth i l 0%Z)).
  - eapply Permutation_trans; [apply perm_skip, IH | apply perm_swap].
  - apply Permutation_refl.
Qed.

Lemma insert_idx_sorted (i : nat) (sorted : list nat) :
  StronglySorted (fun a b => (nth a l 0 <= nth b l 0)%Z) sorted ->
  StronglySorted (fun a b => (nth a l 0 <= nth b l 0)%Z)
                 (insert_idx before l i sorted).
Proof.
  induction sorted as [|j sorted IH]; simpl; intros Hs; [repeat constructor|].
  inversion Hs as [|? ? Hs' Hj]; subst.
  destruct (before (nth j l 0%Z) (nth i l 0%Z)) eqn:E.
  - constructor; [now apply IH|].
    rewrite Forall_forall in *. intros k Hk.
    apply (Permutation_in _ (insert_idx_perm i sorted)) in Hk.
    destruct Hk as [<-|Hk]; [now apply before_le | now apply Hj].
  - apply not_before_ge in E. constructor; [exact Hs|].
    constructor; [exact E|].
    rewrite Forall_forall in *. intros k Hk. specialize (Hj k Hk). lia.
Qed.

Lemma insertion_kernel_sorts (idx : list nat) :
  Permutation (fold_right (insert_idx before l) [] idx) idx /\
  StronglySorted (fun a b => (nth a l 0 <= nth b l 0)%Z)
                 (fold_right (insert_idx before l) [] idx).
Proof.
  induction idx as [|i idx [IHp IHs]]; simpl; [split; constructor|]. split.
  - eapply Permutation_trans; [apply insert_idx_perm | now apply perm_skip].
  - now apply insert_idx_sorted.
Qed.
End InsertionKernels.

Lemma argsort_reversing_sorts : sorts argsort_reversing.
Proof.
  intros l. unfold argsort_reversing.
  destruct (@insertion_kernel_sorts Z.leb
              (fun a b H => proj1 (Z.leb_le a b) H)
              (fun a b H => Z.lt_le_incl _ _ (proj1 (Z.leb_gt a b) H))
              l (seq 0 (length l))) as [Hp Hs].
  split; [exact Hp|].
  apply StronglySorted_Sorted. now apply StronglySorted_map_inv.
Qed.

Lemma argsort_stable_sorts : sorts argsort_stable.
Proof.
  intros l. unfold argsort_stable.
  destruct (@insertion_kernel_sorts Z.ltb
              (fun a b H => Z.lt_le_incl _ _ (proj1 (Z.ltb_lt a b) H))
              (fun a b H => proj1 (Z.ltb_ge a b) H)
              l (seq 0 (length l))) as [Hp Hs].
  split; [exact Hp|].
  apply StronglySorted_Sorted. now apply StronglySorted_map_inv.
Qed.

Lemma high_confidence_sorted_witness :
  let filtered := [EdgeRow "A" "regulates" "B" 3 None;
                   EdgeRow "B" "regulates" "C" 1 None;
                   EdgeRow "A" "interacts" "C" 5 None] in
  length (high_confidence argsort_stable filtered) <= 10 /\
  length (high_confidence argsort_stable filtered) =
    Nat.min 10 (length (filter (fun e => (2 <? weight e)%Z) filtered)) /\
  (forall e, In e (high_confidence argsort_stable filtered) ->
             In e filtered /\ (2 < weight e)%Z) /\
  StronglySorted (fun x y => (weight y <= weight x)%Z)
                 (high_confidence argsort_stable filtered) /\
  exists rest,
    Permutation (high_confidence argsort_stable filtered ++ rest)
                (filter (fun e => (2 <? weight e)%Z) filtered) /\
    forall x y, In x (high_confidence argsort_stable filtered) -> In y rest ->
                (weight y <= weight x)%Z.
Proof.
  intros filtered.
  exact (high_confidence_sorted filtered argsort_stable_sorts).
Defined.

(** C3 as stated fails.  Line 162 names no [kind], so the rows are
    sorted by numpy's quicksort, which sorts and promises nothing on the
    order of equal values: that the kernel sorts does not make the list
    the one C3 words.  On twenty relationships of weights 3 and 4 in turn
    the stable list is the ten of weight 4 in table order, and a kernel
    that sorts returns them in another order. *)
Lemma high_confidence_ties_not_kept :
  highConfidence twenty_relationships =
    filter (fun e => (weight e =? 4)%Z) twenty_relationships /\
  ~ (forall argsort : list Z -> list nat, sorts argsort ->
       high_confidence argsort twenty_relationships =
       highConfidence twenty_relationships).
Proof.
  split; [reflexivity|].
  intros H. specialize (H argsort_reversing argsort_reversing_sorts).
  vm_compute in H. discriminate H.
Qed.

(* ------------------------------------------------------------------ *)
(** ** Tab 4: density *)

(** C6, as the code has it: on a directed graph [nx.density] counts
    ordered pairs, which is half the specification's formula; only on an
    undirected graph is it the formula itself. *)
Theorem density_counts_ordered_pairs (G : graph) :
  2 <= length (G_nodes G) ->
  (density G == (if is_directed G then 1 # 2 else 1) * spec_density G)%Q.
Proof.
  intros Hn. unfold density, spec_density.
  set (n := Z.of_nat (length (G_nodes G))).
  set (m := Z.of_nat (length (G_edges G))).
  assert (Hn' : (2 <= n)%Z) by (unfold n; lia).
  assert (Hd : (0 < n * (n - 1))%Z) by nia.
  assert (Hq1 : ~ (inject_Z n == 0)%Q).
  { unfold Qeq, inject_Z. simpl. lia. }
  assert (Hq2 : ~ (inject_Z (n - 1) == 0)%Q).
  { unfold Qeq, inject_Z. simpl. lia. }
  rewrite !inject_Z_mult.
  destruct (m =? 0)%Z eqn:Em; cbn [orb].
  - apply Z.eqb_eq in Em. rewrite Em.
    destruct (is_directed G); field; now split.
  - destruct (n <=? 1)%Z eqn:En; [apply Z.leb_le in En; lia|].
    destruct (is_directed G); field; now split.
Qed.

Lemma density_counts_ordered_pairs_witness :
  (density (Graph ["A"; "B"; "C"] [("A", "B"); ("A", "C")] true)
   == (1 # 2) * spec_density (Graph ["A"; "B"; "C"] [("A", "B"); ("A", "C")] true))%Q.
Proof.
  apply (density_counts_ordered_pairs
           (Graph ["A"; "B"; "C"] [("A", "B"); ("A", "C")] true)).
  simpl. lia.
Defined.

(** C6 as stated fails: two entities and one relationship have density
    1/2, and the formula gives 1. *)
Lemma density_is_not_spec_formula :
  let G := Graph ["A"; "B"] [("A", "B")] true in
  2 <= length (G_nodes G) /\ ~ (density G == spec_density G)%Q.
Proof. simpl. split; [lia|]. intros H. vm_compute in H. discriminate. Qed.

(* ------------------------------------------------------------------ *)
(** ** Tab 4: the PageRank table *)

Lemma score_lt_asym (x y : string * Q) :
  score_lt x y = true -> score_lt y x = false.
Proof.
  unfold score_lt. intros H. apply negb_true_iff in H.
  apply negb_false_iff. apply Qle_bool_iff.
  destruct (Qlt_le_dec (snd y) (snd x)) as [Hlt|Hle]; [|exact Hle].
  apply Qlt_le_weak in Hlt. apply Qle_bool_iff in Hlt. congruence.
Qed.

Lemma score_not_below_iff (x y : string * Q) :
  not_below score_lt x y <-> (snd y <= snd x)%Q.
Proof.
  unfold not_below, score_lt. rewrite negb_false_iff. apply Qle_bool_iff.
Qed.

Lemma score_not_below_trans (x y z : string * Q) :
  not_below score_lt x y -> not_below score_lt y z -> not_below score_lt x z.
Proof.
  rewrite !score_not_below_iff. intros H1 H2. now apply Qle_trans with (snd y).
Qed.

(** C7, as the code has it: the table holds at most 15 rows, descending
    by score; rows of equal score stand in the order of the mapping
    (the graph's node order), since [sorted] is stable and looks at the
    score alone.  The rows are the head of a rearrangement of the whole
    mapping whose tail scores no higher. *)
Theorem top_pagerank_stable (pagerank : list (string * Q)) :
  length (top_pagerank pagerank) <= 15 /\
  StronglySorted (fun x y => (snd y <= snd x)%Q) (top_pagerank pagerank) /\
  exists rest,
    Permutation (top_pagerank pagerank ++ rest) pagerank /\
    (forall x y, In x (top_pagerank pagerank) -> In y rest ->
                 (snd y <= snd x)%Q) /\
    (forall q : Q,
       filter (fun x => Qeq_bool (snd x) q) (top_pagerank pagerank ++ rest) =
       filter (fun x => Qeq_bool (snd x) q) pagerank).
Proof.
  unfold top_pagerank.
  pose proof (sorted_reverse_sorted score_lt_asym score_not_below_trans pagerank)
    as Hs.
  split; [apply firstn_le_length|]. split.
  - apply StronglySorted_firstn.
    eapply StronglySorted_impl; [|exact Hs].
    intros x y. apply score_not_below_iff.
  - exists (skipn 15 (sorted_reverse score_lt pagerank)).
    rewrite firstn_skipn. split; [apply sorted_reverse_perm|]. split.
    + intros x y Hx Hy. apply score_not_below_iff.
      rewrite <- (firstn_skipn 15 (sorted_reverse score_lt pagerank)) in Hs.
      exact (StronglySorted_app_le _ _ Hs x y Hx Hy).
    + intros q. apply sorted_reverse_stable.
      intros a b Ha Hb. apply Qeq_bool_iff in Ha, Hb.
      apply score_not_below_iff. rewrite Ha, Hb. apply Qle_refl.
Qed.

(** C7 as stated fails: two isolated nodes ["b"], ["a"] have equal
    PageRank, and the table lists ["b"] first. *)
Lemma top_pagerank_not_by_name :
  by_score_then_name (top_pagerank [("b", 1 # 2); ("a", 1 # 2)]%Q) = false.
Proof. reflexivity. Qed.

(* ------------------------------------------------------------------ *)
(** ** Tab 4: walks in the undirected view *)

Lemma mem_In (v : string) (l : list string) : mem v l = true <-> In v l.
Proof.
  unfold mem. rewrite existsb_exists. split.
  - intros [x [Hx E]]. apply String.eqb_eq in E. now subst.
  - intros H. exists v. split; [exact H | apply String.eqb_refl].
Qed.

Lemma mem_false (v : string) (l : list string) : mem v l = false <-> ~ In v l.
Proof.
  rewrite <- mem_In. destruct (mem v l); split; congruence.
Qed.

Lemma nodup_b_NoDup (l : list string) : nodup_b l = true <-> NoDup l.
Proof.
  induction l as [|v l IH]; simpl.
  - split; [constructor | reflexivity].
  - rewrite andb_true_iff, negb_true_iff, mem_false. split.
    + intros [H1 H2]. constructor; [exact H1 | now apply IH].
    + intros H. inversion H; subst. split; [assumption | now apply IH].
Qed.

Lemma neighbors_adjacent (U : graph) (u w : string) :
  In w (neighbors U u) <-> adjacent U u w.
Proof.
  unfold neighbors, adjacent. rewrite in_flat_map. split.
  - intros [[a b] [He Hw]]. simpl in Hw. apply in_app_or in Hw.
    destruct Hw as [Hw|Hw].
    + destruct (String.eqb a u) eqn:E; [|contradiction].
      apply String.eqb_eq in E. destruct Hw as [<-|[]]. subst. now left.
    + destruct (String.eqb b u) eqn:E; [|contradiction].
      apply String.eqb_eq in E. destruct Hw as [<-|[]]. subst. now right.
  - intros [H|H].
    + exists (u, w). split; [exact H|]. simpl. rewrite String.eqb_refl.
      now left.
    + exists (w, u). split; [exact H|]. simpl. rewrite String.eqb_refl.
      apply in_or_app. right. now left.
Qed.

Lemma adjacent_sym (U : graph) (u v : string) : adjacent U u v -> adjacent U v u.
Proof. unfold adjacent. tauto. Qed.

Lemma walk_first (U : graph) (k : nat) (u v w : string) :
  adjacent U u v -> walk U k v w -> walk U (S k) u w.
Proof.
  intros Ha H. induction H as [v|k v x y H IH Hxy].
  - apply walk_step with u; [constructor | exact Ha].
  - apply walk_step with x; [now apply IH | exact Hxy].
Qed.

Lemma walk_sym (U : graph) (k : nat) (u v : string) :
  walk U k u v -> walk U k v u.
Proof.
  induction 1 as [u|k u v w H IH Hvw]; [constructor|].
  apply walk_first with v; [now apply adjacent_sym | exact IH].
Qed.

Lemma walk_app (U : graph) (j k : nat) (u v w : string) :
  walk U j u v -> walk U k v w -> walk U (j + k) u w.
Proof.
  intros H1 H2. induction H2 as [v|k v x y H IH Hxy].
  - now rewrite Nat.add_0_r.
  - rewrite Nat.add_succ_r. apply walk_step with x; [now apply IH | exact Hxy].
Qed.

Lemma joined_refl (U : graph) (u : string) : joined U u u.
Proof. exists 0. constructor. Qed.

Lemma joined_sym (U : graph) (u v : string) : joined U u v -> joined U v u.
Proof. intros [k H]. exists k. now apply walk_sym. Qed.

Lemma joined_trans (U : graph) (u v w : string) :
  joined U u v -> joined U v w -> joined U u w.
Proof. intros [j H1] [k H2]. exists (j + k). now apply walk_app with v. Qed.

Lemma well_formed_spec (U : graph) :
  well_formed U = true <->
  NoDup (G_nodes U) /\
  forall u v, In (u, v) (G_edges U) -> In u (G_nodes U) /\ In v (G_nodes U).
Proof.
  unfold well_formed. rewrite andb_true_iff, nodup_b_NoDup, forallb_forall.
  split; intros [H1 H2]; (split; [exact H1|]).
  - intros u v H. specialize (H2 _ H). simpl in H2.
    apply andb_true_iff in H2. now rewrite !mem_In in H2.
  - intros [u v] H. simpl. apply andb_true_iff. rewrite !mem_In. now apply H2.
Qed.

Lemma adjacent_in_nodes (U : graph) (u v : string) :
  well_formed U = true -> adjacent U u v -> In u (G_nodes U) /\ In v (G_nodes U).
Proof.
  intros Hwf [H|H]; apply well_formed_spec in Hwf; destruct Hwf as [_ Hwf];
    apply Hwf in H; tauto.
Qed.

Lemma walk_in_nodes (U : graph) (k : nat) (u v : string) :
  well_formed U = true -> In u (G_nodes U) -> walk U k u v -> In v (G_nodes U).
Proof.
  intros Hwf Hu H. induction H as [u|k u v w H IH Hvw]; [exact Hu|].
  now apply (adjacent_in_nodes Hwf Hvw).
Qed.

(** Whether a walk of a given length exists can be decided: its last
    step is one of the finitely many edges. *)
Lemma walk_last_edge (U : graph) (k : nat) (u w : string) :
  walk U (S k) u w <->
  Exists (fun e => (snd e = w /\ walk U k u (fst e)) \/
                   (fst e = w /\ walk U k u (snd e))) (G_edges U).
Proof.
  rewrite Exists_exists. split.
  - intros H. inversion H as [|? ? v ? Hk Ha]; subst.
    destruct Ha as [Ha|Ha].
    + exists (v, w). split; [exact Ha | left; now split].
    + exists (w, v). split; [exact Ha | right; now split].
  - intros [[a b] [He [[E H]|[E H]]]]; simpl in *; subst.
    + apply walk_step with a; [exact H | now left].
    + apply walk_step with b; [exact H | now right].
Qed.

Lemma walk_dec (U : graph) (k : nat) (u w : string) :
  walk U k u w \/ ~ walk U k u w.
Proof.
  revert w. induction k as [|k IH]; intros w.
  - destruct (string_dec u w) as [->|Hne].
    + left. constructor.
    + right. intros H. inversion H. congruence.
  - rewrite walk_last_edge.
    induction (G_edges U) as [|[a b] es IHes].
    + right. intros H. inversion H.
    + destruct IHes as [H|H]; [left; now apply Exists_cons_tl|].
      destruct (string_dec b w) as [Eb|Eb], (IH a) as [Ha|Ha];
        try (left; apply Exists_cons_hd; left; now split).
      all: destruct (string_dec a w) as [Ea|Ea], (IH b) as [Hb|Hb];
        try (left; apply Exists_cons_hd; right; now split).
      all: right; intros Hex; inversion Hex as [? ? Hhd|? ? Htl]; subst;
        [simpl in Hhd; tauto | contradiction].
Qed.

(** Two joined nodes are at some distance. *)
Lemma joined_distance (U : graph) (u v : string) :
  joined U u v -> exists k, distance U u v k.
Proof.
  intros H.
  destruct (dec_inh_nat_subset_has_unique_least_element
              (fun k => walk U k u v) (fun k => walk_dec U k u v) H)
    as [k [[Hk Hmin] _]].
  exists k. split; [exact Hk | exact Hmin].
Qed.

Lemma distance_unique (U : graph) (u v : string) (j k : nat) :
  distance U u v j -> distance U u v k -> j = k.
Proof.
  intros [H1 M1] [H2 M2]. specialize (M1 _ H2). specialize (M2 _ H1). lia.
Qed.

(** The node before the last on a shortest path is one hop nearer. *)
Lemma distance_pred (U : graph) (s w : string) (m : nat) :
  distance U s w (S m) -> exists v, distance U s v m /\ adjacent U v w.
Proof.
  intros [H Hmin]. inversion H as [|? ? v ? Hm Ha]; subst.
  exists v. split; [|exact Ha]. split; [exact Hm|].
  intros j Hj. assert (Hw : walk U (S j) s w) by now apply walk_step with v.
  apply Hmin in Hw. lia.
Qed.

Lemma distance_prefix (U : graph) (s w : string) (k j : nat) :
  distance U s w (k + j) -> exists v, distance U s v k.
Proof.
  revert w. induction j as [|j IH]; intros w H.
  - rewrite Nat.add_0_r in H. now exists w.
  - rewrite Nat.add_succ_r in H. apply distance_pred in H.
    destruct H as [v [Hv _]]. now apply IH with v.
Qed.

(* ------------------------------------------------------------------ *)
(** ** Tab 4: breadth-first search finds the nodes by distance *)

Lemma discover_In (seen cands : list string) (w : string) :
  In w (discover seen cands) <-> In w cands /\ ~ In w seen.
Proof.
  revert seen. induction cands as [|c cands IH]; intros seen; simpl.
  - tauto.
  - destruct (mem c seen) eqn:E.
    + apply mem_In in E. rewrite IH. split.
      * tauto.
      * intros [[->|H] Hn]; [contradiction | tauto].
    + apply mem_false in E. simpl. rewrite IH. simpl.
      destruct (string_dec c w) as [->|Hne]; tauto.
Qed.

Lemma discover_NoDup (seen cands : list string) : NoDup (discover seen cands).
Proof.
  revert seen. induction cands as [|c cands IH]; intros seen; simpl.
  - constructor.
  - destruct (mem c seen); [apply IH|].
    constructor; [|apply IH].
    rewrite discover_In. simpl. tauto.
Qed.

Lemma bfs_levels_nil (fuel : nat) (U : graph) (seen : list string) :
  bfs_levels fuel U seen [] = [].
Proof. now destruct fuel. Qed.

(** The levels are not empty. *)
Lemma bfs_levels_nonempty (fuel : nat) (U : graph) (seen level : list string) :
  Forall (fun L => L <> []) (bfs_levels fuel U seen level).
Proof.
  revert seen level. induction fuel as [|fuel IH]; intros seen level; simpl.
  - constructor.
  - destruct level as [|v level]; constructor; [discriminate | apply IH].
Qed.

(** No node is in two levels, or twice in one. *)
Lemma bfs_levels_NoDup (fuel : nat) (U : graph) (seen level : list string) :
  NoDup level -> incl level seen ->
  NoDup (concat (bfs_levels fuel U seen level)) /\
  forall v, In v (concat (bfs_levels fuel U seen level)) ->
            In v level \/ ~ In v seen.
Proof.
  revert seen level. induction fuel as [|fuel IH]; intros seen level Hn Hi.
  - simpl. split; [constructor | contradiction].
  - destruct level as [|x level]; [simpl; split; [constructor | contradiction]|].
    cbn [bfs_levels concat].
    set (next := discover seen (flat_map (neighbors U) (x :: level))).
    destruct (IH (next ++ seen) next (discover_NoDup _ _)
                 (fun a Ha => in_or_app _ _ a (or_introl Ha))) as [IHn IHi].
    assert (Hrec : forall v, In v (concat (bfs_levels fuel U (next ++ seen) next)) ->
                             ~ In v seen).
    { intros v Hv. destruct (IHi v Hv) as [H|H].
      - apply discover_In in H. tauto.
      - intros Hs. apply H. apply in_or_app. now right. }
    split.
    + apply NoDup_app; [exact Hn | exact IHn|].
      intros a Ha Hc. apply (Hrec a Hc). now apply Hi.
    + intros v Hv. apply in_app_or in Hv. destruct Hv as [Hv|Hv];
        [now left | right; now apply Hrec].
Qed.

Lemma In_concat_nth (ls : list (list string)) (v : string) :
  In v (concat ls) <-> exists j, In v (nth j ls []).
Proof.
  induction ls as [|L ls IH]; simpl.
  - split; [contradiction | intros [[|j] H]; contradiction].
  - rewrite in_app_iff, IH. split.
    + intros [H|[j H]]; [now exists 0 | now exists (S j)].
    + intros [[|j] H]; [now left | right; now exists j].
Qed.

Section Bfs.
Variable U : graph.
Variable s : string.
Hypothesis U_wf : well_formed U = true.
Hypothesis s_node : In s (G_nodes U).

Lemma bfs_inv_start : bfs_inv U s 0 [s] [s].
Proof.
  split; [repeat constructor; intros []|]. split; intros v; simpl.
  - split.
    + intros [<-|[]]. exists 0. split; [lia | constructor].
    + intros [j [Hj H]]. assert (j = 0) by lia. subst.
      inversion H. now left.
  - split.
    + intros [<-|[]]. split; [constructor | intros; lia].
    + intros [H _]. inversion H. now left.
Qed.

Lemma bfs_inv_step (k : nat) (seen level : list string) :
  bfs_inv U s k seen level ->
  bfs_inv U s (S k)
          (discover seen (flat_map (neighbors U) level) ++ seen)
          (discover seen (flat_map (neighbors U) level)).
Proof.
  intros [Hn [Hseen Hlevel]].
  set (next := discover seen (flat_map (neighbors U) level)).
  assert (Hnext : forall v, In v next <-> distance U s v (S k)).
  { intros v. unfold next. rewrite discover_In, in_flat_map. split.
    - intros [[u [Hu Hv]] Hns]. apply neighbors_adjacent in Hv.
      apply Hlevel in Hu. destruct Hu as [Hu _]. split.
      + now apply walk_step with u.
      + intros j Hj. destruct (le_lt_dec j k) as [Hle|Hlt]; [|lia].
        exfalso. apply Hns. apply Hseen. now exists j.
    - intros Hd. split.
      + destruct (distance_pred Hd) as [u [Hu Ha]]. exists u.
        split; [now apply Hlevel | now apply neighbors_adjacent].
      + intros Hs. apply Hseen in Hs. destruct Hs as [j [Hj Hw]].
        destruct Hd as [_ Hmin]. apply Hmin in Hw. lia. }
  split; [|split; [|exact Hnext]].
  - apply NoDup_app; [apply discover_NoDup | exact Hn|].
    intros a Ha. apply discover_In in Ha. tauto.
  - intros v. rewrite in_app_iff. split.
    + intros [H|H].
      * apply Hnext in H. destruct H as [H _]. now exists (S k).
      * apply Hseen in H. destruct H as [j [Hj H]]. exists j. split; [lia | exact H].
    + intros [j [Hj H]].
      destruct (in_dec string_dec v seen) as [Hin|Hout]; [now right|].
      left. apply Hnext. split.
      * assert (j = S k); [|now subst].
        destruct (le_lt_dec j k) as [Hle|Hlt]; [|lia].
        exfalso. apply Hout, Hseen. now exists j.
      * intros i Hi. destruct (le_lt_dec i k) as [Hle|Hlt]; [|lia].
        exfalso. apply Hout, Hseen. now exists i.
Qed.

Lemma bfs_inv_seen_bound (k : nat) (seen level : list string) :
  bfs_inv U s k seen level -> length seen <= length (G_nodes U).
Proof.
  intros [Hn [Hseen _]]. apply NoDup_incl_length; [exact Hn|].
  intros v Hv. apply Hseen in Hv. destruct Hv as [j [_ H]].
  exact (walk_in_nodes U_wf s_node H).
Qed.

(** With fuel for every node not yet seen, level [j] of the output holds
    the nodes [j] hops beyond the level the search was started at. *)
Lemma bfs_levels_distance (fuel k : nat) (seen level : list string) :
  bfs_inv U s k seen level ->
  (level <> [] -> length (G_nodes U) + 1 <= fuel + length seen) ->
  forall j v, In v (nth j (bfs_levels fuel U seen level) []) <->
              distance U s v (k + j).
Proof.
  revert k seen level. induction fuel as [|fuel IH]; intros k seen level Hinv Hf j v.
  - destruct level as [|x level].
    + simpl. destruct j; simpl; (split; [contradiction|]); intros Hd;
        apply distance_prefix in Hd; destruct Hd as [u Hu];
        destruct Hinv as [_ [_ Hl]]; now apply Hl in Hu.
    + pose proof (bfs_inv_seen_bound Hinv).
      assert (x :: level <> []) as Hne by discriminate.
      specialize (Hf Hne). lia.
  - destruct level as [|x level].
    + simpl. destruct j; simpl; (split; [contradiction|]); intros Hd;
        apply distance_prefix in Hd; destruct Hd as [u Hu];
        destruct Hinv as [_ [_ Hl]]; now apply Hl in Hu.
    + cbn [bfs_levels]. destruct j as [|j].
      * cbn [nth]. rewrite Nat.add_0_r. now apply Hinv.
      * cbn [nth]. rewrite Nat.add_succ_r.
        change (S (k + j)) with (S k + j). apply IH.
        -- now apply bfs_inv_step.
        -- intros Hne. rewrite length_app.
           assert (x :: level <> []) as Hne' by discriminate.
           specialize (Hf Hne').
           destruct (discover seen (flat_map (neighbors U) (x :: level)));
             [congruence | simpl; lia].
Qed.

Lemma levels_from_distance (j : nat) (v : string) :
  In v (nth j (levels_from U s) []) <-> distance U s v j.
Proof.
  unfold levels_from.
  apply (@bfs_levels_distance (length (G_nodes U)) 0 [s] [s] bfs_inv_start).
  simpl. lia.
Qed.

(** The search reaches the nodes joined to its source, each once. *)
Lemma plain_bfs_joined (v : string) : In v (plain_bfs U s) <-> joined U s v.
Proof.
  unfold plain_bfs. rewrite In_concat_nth. split.
  - intros [j H]. apply levels_from_distance in H. destruct H as [H _].
    now exists j.
  - intros H. apply joined_distance in H. destruct H as [k H].
    exists k. now apply levels_from_distance.
Qed.

Lemma plain_bfs_NoDup : NoDup (plain_bfs U s).
Proof.
  unfold plain_bfs, levels_from.
  apply bfs_levels_NoDup; [repeat constructor; intros [] | apply incl_refl].
Qed.

Lemma plain_bfs_incl : incl (plain_bfs U s) (G_nodes U).
Proof.
  intros v Hv. apply plain_bfs_joined in Hv. destruct Hv as [k H].
  exact (walk_in_nodes U_wf s_node H).
Qed.

(** The search reaches as many nodes as the graph has when it reaches
    every node. *)
Lemma plain_bfs_all :
  (length (plain_bfs U s) =? length (G_nodes U)) = true <->
  forall v, In v (G_nodes U) -> joined U s v.
Proof.
  rewrite Nat.eqb_eq.
  assert (Hnd : NoDup (G_nodes U)) by (apply well_formed_spec in U_wf; tauto).
  split.
  - intros E v Hv. apply plain_bfs_joined.
    apply (@NoDup_length_incl _ (plain_bfs U s) (G_nodes U));
      [apply plain_bfs_NoDup | lia | apply plain_bfs_incl | exact Hv].
  - intros H. apply Nat.le_antisymm.
    + apply NoDup_incl_length; [apply plain_bfs_NoDup | apply plain_bfs_incl].
    + apply NoDup_incl_length; [exact Hnd|].
      intros v Hv. apply plain_bfs_joined. now apply H.
Qed.
End Bfs.

(* ------------------------------------------------------------------ *)
(** ** Tab 4: components, eccentricity and diameter *)

Lemma components_from_nil (U : graph) (seen vs : list string) :
  components_from U seen vs = [] <-> forall v, In v vs -> In v seen.
Proof.
  revert seen. induction vs as [|v vs IH]; intros seen; simpl.
  - split; [intros _ v [] | reflexivity].
  - destruct (mem v seen) eqn:E.
    + apply mem_In in E. rewrite IH. split.
      * intros H w [<-|Hw]; [exact E | now apply H].
      * intros H w Hw. apply H. now right.
    + apply mem_false in E. split; [discriminate|].
      intros H. exfalso. apply E, H. now left.
Qed.

Section Components.
Variable U : graph.
Hypothesis U_wf : well_formed U = true.

Lemma components_from_reps (vs seen : list string) :
  incl vs (G_nodes U) -> closed U seen ->
  exists reps,
    length reps = length (components_from U seen vs) /\
    incl reps vs /\
    (forall r, In r reps -> ~ In r seen) /\
    ForallOrdPairs (fun r r' => ~ joined U r r') reps /\
    forall v, In v vs -> In v seen \/ exists r, In r reps /\ joined U r v.
Proof.
  revert seen. induction vs as [|v vs IH]; intros seen Hvs Hc.
  - exists []. repeat split; try constructor; try contradiction.
    intros a [].
  - assert (Hv : In v (G_nodes U)) by (apply Hvs; now left).
    assert (Hvs' : incl vs (G_nodes U)) by (intros a Ha; apply Hvs; now right).
    simpl. destruct (mem v seen) eqn:E.
    + apply mem_In in E. destruct (IH seen Hvs' Hc) as [reps [Hl [Hi [Hs [Hp Hj]]]]].
      exists reps. repeat split; try assumption.
      * intros a Ha. right. now apply Hi.
      * intros w [<-|Hw]; [now left | now apply Hj].
    + apply mem_false in E.
      assert (Hc' : closed U (plain_bfs U v ++ seen)).
      { intros a b Ha Hab. apply in_or_app. apply in_app_or in Ha.
        destruct Ha as [Ha|Ha].
        - left. apply (@plain_bfs_joined U v U_wf Hv).
          apply (@plain_bfs_joined U v U_wf Hv) in Ha. now apply joined_trans with a.
        - right. now apply Hc with a. }
      destruct (IH _ Hvs' Hc') as [reps [Hl [Hi [Hs [Hp Hj]]]]].
      exists (v :: reps). simpl. repeat split.
      * now rewrite Hl.
      * intros a [<-|Ha]; [now left | right; now apply Hi].
      * intros r [<-|Hr]; [exact E|].
        intros Hin. apply (Hs r Hr). apply in_or_app. now right.
      * constructor; [|exact Hp].
        rewrite Forall_forall. intros r Hr Hvr. apply (Hs r Hr).
        apply in_or_app. left. now apply (@plain_bfs_joined U v U_wf Hv).
      * intros w [<-|Hw].
        -- right. exists v. split; [now left | apply joined_refl].
        -- destruct (Hj w Hw) as [Hin|[r [Hr Hrw]]].
           ++ apply in_app_or in Hin. destruct Hin as [Hin|Hin]; [|now left].
              right. exists v. split; [now left|].
              now apply (@plain_bfs_joined U v U_wf Hv).
           ++ right. exists r. split; [now right | exact Hrw].
Qed.

(** [number_connected_components] counts the components. *)
Lemma number_connected_components_spec :
  component_count U (number_connected_components U).
Proof.
  destruct (@components_from_reps (G_nodes U) [] (incl_refl _))
    as [reps [Hl [Hi [_ [Hp Hj]]]]].
  { intros v w []. }
  exists reps. repeat split; try assumption.
  intros v Hv. destruct (Hj v Hv) as [[]|H]. exact H.
Qed.

(** [is_connected] holds when there is one component. *)
Lemma is_connected_one_component :
  G_nodes U <> [] ->
  exists b, is_connected U = Ok b /\
            (b = true <-> number_connected_components U = 1) /\
            (b = true <-> forall u v, In u (G_nodes U) -> In v (G_nodes U) ->
                                      joined U u v).
Proof.
  intros Hne. unfold is_connected, number_connected_components,
    connected_components.
  destruct (G_nodes U) as [|s rest] eqn:En; [congruence|].
  assert (Hs : In s (G_nodes U)) by (rewrite En; now left).
  eexists. split; [reflexivity|].
  assert (Hall : (length (plain_bfs U s) =? length (s :: rest)) = true <->
                 forall v, In v (s :: rest) -> joined U s v).
  { rewrite <- En. apply (@plain_bfs_all U s U_wf Hs). }
  split.
  - rewrite Hall. simpl.
    assert (Hl : forall l : list (list string), S (length l) = 1 <-> l = []).
    { intros [|x l]; simpl; split; congruence. }
    rewrite Hl, components_from_nil. split.
    + intros H v Hv. apply in_or_app. left.
      apply (@plain_bfs_joined U s U_wf Hs). apply H. now right.
    + intros H v [<-|Hv]; [apply joined_refl|].
      apply (@plain_bfs_joined U s U_wf Hs).
      specialize (H v Hv). apply in_app_or in H. now destruct H.
  - rewrite Hall. split.
    + intros H u v Hu Hv. apply joined_trans with s.
      * apply joined_sym. now apply H.
      * now apply H.
    + intros H v Hv. apply H; [now left | exact Hv].
Qed.

Lemma nth_In_length (ls : list (list string)) (k : nat) (v : string) :
  In v (nth k ls []) -> k < length ls.
Proof.
  intros H. destruct (le_lt_dec (length ls) k) as [Hle|Hlt]; [|exact Hlt].
  rewrite nth_overflow in H by exact Hle. contradiction.
Qed.

(** The number of levels of the search from [v], less one, is the
    largest distance from [v]. *)
Lemma levels_from_farthest (v : string) :
  In v (G_nodes U) ->
  (forall w k, distance U v w k -> k <= length (levels_from U v) - 1) /\
  (exists w, distance U v w (length (levels_from U v) - 1)).
Proof.
  intros Hv.
  assert (H0 : 0 < length (levels_from U v)).
  { apply nth_In_length with v. apply (@levels_from_distance U v U_wf Hv).
    split; [constructor | intros; lia]. }
  split.
  - intros w k Hd. apply (@levels_from_distance U v U_wf Hv) in Hd.
    apply nth_In_length in Hd. lia.
  - set (e := length (levels_from U v) - 1).
    assert (He : e < length (levels_from U v)) by (unfold e; lia).
    pose proof (nth_In (levels_from U v) [] He) as Hin.
    pose proof (bfs_levels_nonempty (length (G_nodes U)) U [v] [v]) as Hne.
    rewrite Forall_forall in Hne. specialize (Hne _ Hin).
    destruct (nth e (levels_from U v) []) as [|w L] eqn:E; [congruence|].
    exists w. apply (@levels_from_distance U v U_wf Hv). rewrite E. now left.
Qed.

Lemma map_result_ok (A B : Type) (f : A -> result B) (g : A -> B) (l : list A) :
  (forall a, In a l -> f a = Ok (g a)) -> map_result f l = Ok (map g l).
Proof.
  induction l as [|a l IH]; intros H; simpl; [reflexivity|].
  rewrite (H a (or_introl eq_refl)). simpl.
  rewrite IH by (intros b Hb; apply H; now right). reflexivity.
Qed.

(** On a connected graph [diameter] returns the longest shortest-path
    hop count. *)
Lemma diameter_connected :
  G_nodes U <> [] ->
  (forall u v, In u (G_nodes U) -> In v (G_nodes U) -> joined U u v) ->
  exists d, diameter U = Ok d /\ longest_shortest_path U d.
Proof.
  intros Hne Hconn.
  set (ecc := fun v => length (levels_from U v) - 1).
  assert (Hecc : forall v, In v (G_nodes U) -> eccentricity U v = Ok (ecc v)).
  { intros v Hv. unfold eccentricity.
    change (concat (levels_from U v)) with (plain_bfs U v).
    assert (E : (length (plain_bfs U v) =? length (G_nodes U)) = true).
    { apply (@plain_bfs_all U v U_wf Hv). intros w Hw. now apply Hconn. }
    now rewrite E. }
  exists (list_max (map ecc (G_nodes U))). split.
  - unfold diameter. now rewrite (map_result_ok _ ecc _ Hecc).
  - split.
    + intros u v Hu Hv.
      destruct (joined_distance (Hconn u v Hu Hv)) as [k Hk]. exists k.
      split; [|exact Hk].
      apply Nat.le_trans with (ecc u).
      * now apply (@levels_from_farthest u Hu) with v.
      * assert (Hle : list_max (map ecc (G_nodes U)) <=
                      list_max (map ecc (G_nodes U))) by lia.
        apply list_max_le in Hle. rewrite Forall_forall in Hle.
        apply Hle. now apply in_map.
    + assert (Hin : In (list_max (map ecc (G_nodes U))) (map ecc (G_nodes U))).
      { apply list_max_In. destruct (G_nodes U); [congruence | discriminate]. }
      apply in_map_iff in Hin. destruct Hin as [u [Eu Hu]].
      destruct (@levels_from_farthest u Hu) as [_ [w Hw]].
      exists u, w. repeat split.
      * exact Hu.
      * destruct Hw as [Hw _]. exact (@walk_in_nodes U _ u w U_wf Hu Hw).
      * rewrite <- Eu. exact (proj1 Hw).
      * rewrite <- Eu. exact (proj2 Hw).
Qed.
End Components.

(** C2, on every graph with which the page comes to line 182, that is
    every graph with a node (on the graph without nodes line 31 has
    divided by zero and the page has stopped): the result is the diameter
    exactly when the undirected view has one connected component, and
    otherwise the number of its components; that number is the true one,
    the diameter returned is the longest shortest-path hop count, and the
    call never raises, the diameter being computed on connected graphs
    only. *)
Theorem connectivity_diameter_or_components (G : graph) :
  well_formed G = true ->
  G_nodes G <> [] ->
  ((exists d, connectivity G = Ok (Diameter d)) <->
   number_connected_components (to_undirected G) = 1) /\
  (number_connected_components (to_undirected G) <> 1 ->
   connectivity G =
   Ok (ComponentCount (number_connected_components (to_undirected G)))) /\
  component_count (to_undirected G)
                  (number_connected_components (to_undirected G)) /\
  (forall d, connectivity G = Ok (Diameter d) ->
             longest_shortest_path (to_undirected G) d) /\
  (forall e, connectivity G <> Raise e).
Proof.
  intros Hwf Hne.
  set (U := to_undirected G).
  assert (Uwf : well_formed U = true) by exact Hwf.
  assert (Une : G_nodes U <> []) by exact Hne.
  destruct (@is_connected_one_component U Uwf Une) as [b [Eb [Hb1 Hb2]]].
  pose proof (@number_connected_components_spec U Uwf) as Hcount.
  unfold connectivity. fold U. rewrite Eb. simpl.
  destruct b.
  - destruct (@diameter_connected U Uwf Une (proj1 Hb2 eq_refl)) as [d [Ed Hd]].
    rewrite Ed. simpl.
    split; [|split; [|split; [|split]]].
    + split; [intros _; now apply Hb1 | intros _; now exists d].
    + intros H. exfalso. apply H. now apply Hb1.
    + exact Hcount.
    + intros d' H. injection H as <-. exact Hd.
    + discriminate.
  - split; [|split; [|split; [|split]]].
    + split; [intros [d H]; discriminate|].
      intros H. apply Hb1 in H. discriminate.
    + reflexivity.
    + exact Hcount.
    + discriminate.
    + discriminate.
Qed.

Lemma connectivity_diameter_or_components_witness :
  let G := Graph ["A"; "B"; "C"; "D"] [("A", "B"); ("C", "B")] true in
  ((exists d, connectivity G = Ok (Diameter d)) <->
   number_connected_components (to_undirected G) = 1) /\
  (number_connected_components (to_undirected G) <> 1 ->
   connectivity G =
   Ok (ComponentCount (number_connected_components (to_undirected G)))) /\
  component_count (to_undirected G)
                  (number_connected_components (to_undirected G)) /\
  (forall d, connectivity G = Ok (Diameter d) ->
             longest_shortest_path (to_undirected G) d) /\
  (forall e, connectivity G <> Raise e).
Proof.
  intros G.
  apply (connectivity_diameter_or_components G); [reflexivity | discriminate].
Defined.

(** The guard of line 182 is needed: on a graph that is not connected
    [nx.diameter] raises. *)
Theorem diameter_raises_when_not_connected (U : graph) :
  is_connected U = Ok false -> diameter U = Raise NetworkXError.
Proof.
  unfold is_connected, diameter. destruct (G_nodes U) as [|s rest] eqn:E;
    [discriminate|].
  intros H. injection H as H. cbn [map_result]. unfold eccentricity at 1.
  change (concat (levels_from U s)) with (plain_bfs U s).
  rewrite E. cbn [length] in H |- *. rewrite H. reflexivity.
Qed.

Lemma diameter_raises_when_not_connected_witness :
  diameter (to_undirected (Graph ["A"; "B"; "C"] [("A", "B")] true)) =
  Raise NetworkXError.
Proof.
  apply (@diameter_raises_when_not_connected
           (to_undirected (Graph ["A"; "B"; "C"] [("A", "B")] true))).
  reflexivity.
Defined.

(* ------------------------------------------------------------------ *)
(** ** Tab 1: fields, counters and the table of documents *)

Lemma chars_app (a b : string) : chars (a ++ b)%string = chars a ++ chars b.
Proof.
  unfold chars. induction a as [|c a IH]; simpl; [reflexivity | now rewrite IH].
Qed.

Lemma string_of_app (a b : list ascii) :
  string_of_list_ascii (a ++ b) =
  (string_of_list_ascii a ++ string_of_list_ascii b)%string.
Proof. induction a as [|c a IH]; simpl; [reflexivity | now rewrite IH]. Qed.

Lemma split_from_cons (cur s : list ascii) :
  exists f fs, split_from cur s = f :: fs.
Proof.
  revert cur. induction s as [|c s IH]; intros cur; simpl.
  - eauto.
  - destruct (ascii_eqb c ","); [eauto | apply IH].
Qed.

Lemma concat_cons (sep x y : string) (l : list string) :
  String.concat sep (x :: y :: l) =
  (x ++ sep ++ String.concat sep (y :: l))%string.
Proof. reflexivity. Qed.

Lemma split_from_join (s cur : list ascii) :
  String.concat "," (split_from cur s) = string_of_list_ascii (rev cur ++ s).
Proof.
  revert cur. induction s as [|c s IH]; intros cur.
  - simpl. now rewrite app_nil_r.
  - cbn [split_from]. destruct (ascii_eqb c ",") eqn:E.
    + apply ascii_eqb_eq in E. subst c.
      destruct (split_from_cons [] s) as [f [fs Ef]].
      specialize (IH []). rewrite Ef in *. rewrite concat_cons, IH.
      cbn [rev app]. rewrite (string_of_app (rev cur) (","%char :: s)).
      reflexivity.
    + rewrite IH. simpl rev. now rewrite <- app_assoc.
Qed.

Lemma split_from_no_comma (s cur : list ascii) :
  ~ In ","%char cur ->
  Forall (fun f => ~ In ","%char (chars f)) (split_from cur s).
Proof.
  revert cur. induction s as [|c s IH]; intros cur Hc; cbn [split_from].
  - constructor; [|constructor]. intros H. unfold chars in H.
    rewrite list_ascii_of_string_of_list_ascii in H. now apply in_rev in H.
  - destruct (ascii_eqb c ",") eqn:E.
    + constructor; [|apply IH; intros []]. intros H. unfold chars in H.
      rewrite list_ascii_of_string_of_list_ascii in H. now apply in_rev in H.
    + apply IH. intros [E'|H]; [|contradiction].
      subst c. rewrite ascii_eqb_refl in E. discriminate.
Qed.

Lemma split_from_field (f rest cur : list ascii) :
  ~ In ","%char f ->
  split_from cur (f ++ rest) = split_from (rev f ++ cur) rest.
Proof.
  revert cur. induction f as [|c f IH]; intros cur Hf; [reflexivity|].
  simpl app. cbn [split_from].
  destruct (ascii_eqb c ",") eqn:E.
  - apply ascii_eqb_eq in E. subst c. exfalso. apply Hf. now left.
  - rewrite IH by (intros H; apply Hf; now right).
    simpl rev. now rewrite <- app_assoc.
Qed.

(** [s.split(',')] and [','.join] undo one another: joining the fields
    of a cell gives the cell back, no field holds a comma, and a non-empty
    list of fields without commas is what splitting their join gives. *)
Theorem split_comma_join_round_trip :
  (forall s : string,
     String.concat "," (split_comma s) = s /\
     split_comma s <> [] /\
     Forall (fun f => ~ In ","%char (chars f)) (split_comma s)) /\
  (forall fields : list string,
     fields <> [] ->
     Forall (fun f => ~ In ","%char (chars f)) fields ->
     split_comma (String.concat "," fields) = fields).
Proof.
  split.
  - intros s. unfold split_comma. split; [|split].
    + rewrite split_from_join. simpl. apply string_of_list_ascii_of_string.
    + destruct (split_from_cons [] (chars s)) as [f [fs E]]. rewrite E.
      discriminate.
    + apply split_from_no_comma. intros [].
  - intros fields Hne Hf. unfold split_comma.
    induction fields as [|f fields IH]; [congruence|].
    inversion Hf as [|? ? Hf1 Hf2]; subst.
    destruct fields as [|g fields].
    + simpl. rewrite <- (app_nil_r (chars f)).
      rewrite split_from_field by exact Hf1. simpl.
      rewrite app_nil_r, rev_involutive. f_equal.
      apply string_of_list_ascii_of_string.
    + rewrite concat_cons, chars_app.
      rewrite split_from_field by exact Hf1. rewrite chars_app.
      change (chars ",") with [","%char]. simpl app. cbn [split_from].
      rewrite ascii_eqb_refl. rewrite app_nil_r, rev_involutive.
      f_equal; [apply string_of_list_ascii_of_string|].
      apply IH; [discriminate | exact Hf2].
Qed.

Lemma split_comma_join_round_trip_witness :
  split_comma (String.concat "," ["PMC1"; " PMC2"; ""]) = ["PMC1"; " PMC2"; ""].
Proof.
  apply (proj2 split_comma_join_round_trip ["PMC1"; " PMC2"; ""]).
  - discriminate.
  - repeat constructor; simpl; intros H;
      repeat (destruct H as [H|H]; [discriminate|]); exact H.
Defined.

Lemma lstrip_spec (l : list ascii) :
  exists pre, l = pre ++ lstrip l /\ forallb is_space pre = true.
Proof.
  induction l as [|c l [pre [E Hp]]]; simpl.
  - now exists [].
  - destruct (is_space c) eqn:Ec.
    + exists (c :: pre). simpl. rewrite Ec, Hp. split; [now f_equal | reflexivity].
    + now exists [].
Qed.

Lemma lstrip_head (l : list ascii) (c : ascii) (t : list ascii) :
  lstrip l = c :: t -> is_space c = false.
Proof.
  induction l as [|x l IH]; simpl; [discriminate|].
  destruct (is_space x) eqn:Ex; [exact IH|].
  intros [= <- _]. exact Ex.
Qed.

Lemma lstrip_fixed (l : list ascii) :
  (forall c t, l = c :: t -> is_space c = false) -> lstrip l = l.
Proof.
  destruct l as [|c t]; [reflexivity|]. intros H. simpl.
  now rewrite (H c t eq_refl).
Qed.

Lemma forallb_rev (A : Type) (p : A -> bool) (l : list A) :
  forallb p l = true -> forallb p (rev l) = true.
Proof.
  rewrite !forallb_forall. intros H x Hx. apply H. now apply in_rev.
Qed.

Lemma strip_chars (s : string) :
  chars (strip s) = rev (lstrip (rev (lstrip (chars s)))).
Proof. unfold strip, chars. apply list_ascii_of_string_of_list_ascii. Qed.

Lemma strip_trimmed (l : list ascii) :
  trimmed (rev (lstrip (rev (lstrip l)))).
Proof.
  destruct (lstrip_spec (rev (lstrip l))) as [pre [E _]].
  set (b := lstrip (rev (lstrip l))) in *.
  assert (Ea : lstrip l = rev b ++ rev pre).
  { rewrite <- rev_app_distr, <- E. now rewrite rev_involutive. }
  split.
  - intros c t Hc. apply (@lstrip_head l c (t ++ rev pre)).
    now rewrite Ea, Hc.
  - intros c t Hc. apply (@lstrip_head (rev (lstrip l)) c (rev t)).
    fold b. rewrite <- (rev_involutive b), Hc, rev_app_distr. reflexivity.
Qed.

(** [s.strip()] removes whitespace at the two ends and nothing else: the
    string is whitespace, the stripped string, whitespace; the stripped
    string neither starts nor ends with whitespace, and stripping it again
    changes nothing. *)
Theorem strip_removes_surrounding_whitespace (s : string) :
  (exists pre post,
     chars s = pre ++ chars (strip s) ++ post /\
     forallb is_space pre = true /\ forallb is_space post = true) /\
  trimmed (chars (strip s)) /\
  strip (strip s) = strip s.
Proof.
  rewrite strip_chars. split; [|split].
  - destruct (lstrip_spec (chars s)) as [pre [E Hpre]].
    destruct (lstrip_spec (rev (lstrip (chars s)))) as [post [E2 Hpost]].
    exists pre, (rev post). split; [|split; [exact Hpre | now apply forallb_rev]].
    rewrite <- rev_app_distr, <- E2, rev_involutive. exact E.
  - apply strip_trimmed.
  - pose proof (strip_trimmed (chars s)) as [H1 H2].
    unfold strip at 1. rewrite strip_chars.
    set (t := rev (lstrip (rev (lstrip (chars s))))) in *.
    rewrite (@lstrip_fixed t H1).
    rewrite lstrip_fixed; [now rewrite rev_involutive|].
    intros c u Hc. apply (H2 c (rev u)).
    rewrite <- (rev_involutive t), Hc. reflexivity.
Qed.

Lemma counter_add_keys (k : string) (c : counter) :
  map fst (counter_add k c) =
  if mem k (map fst c) then map fst c else map fst c ++ [k].
Proof.
  induction c as [|[a n] c IH]; simpl; [reflexivity|].
  rewrite (String.eqb_sym k a).
  destruct (String.eqb a k); simpl; [reflexivity|].
  rewrite IH. now destruct (mem k (map fst c)).
Qed.

Lemma counter_add_sum (k : string) (c : counter) :
  list_sum (map snd (counter_add k c)) = S (list_sum (map snd c)).
Proof.
  induction c as [|[a n] c IH]; simpl; [reflexivity|].
  destruct (String.eqb a k); simpl; [reflexivity | rewrite IH; lia].
Qed.

Lemma Counter_keys (l : list string) (c : counter) :
  NoDup (map fst c) ->
  NoDup (map fst (fold_left (fun c k => counter_add k c) l c)) /\
  (forall k, In k (map fst (fold_left (fun c k => counter_add k c) l c)) <->
             In k (map fst c) \/ In k l) /\
  list_sum (map snd (fold_left (fun c k => counter_add k c) l c)) =
  list_sum (map snd c) + length l.
Proof.
  revert c. induction l as [|x l IH]; intros c Hc; simpl.
  - split; [exact Hc|]. split; [tauto | lia].
  - assert (Hc' : NoDup (map fst (counter_add x c))).
    { rewrite counter_add_keys. destruct (mem x (map fst c)) eqn:E; [exact Hc|].
      apply mem_false in E. apply NoDup_app; [exact Hc | repeat constructor; intros [] |].
      intros a Ha [<-|[]]. contradiction. }
    destruct (IH _ Hc') as [H1 [H2 H3]]. split; [exact H1|]. split.
    + intros k. rewrite H2, counter_add_keys.
      destruct (mem x (map fst c)) eqn:E.
      * apply mem_In in E. split; [tauto|].
        intros [H|[<-|H]]; tauto.
      * rewrite in_app_iff. simpl. tauto.
    + rewrite H3, counter_add_sum. lia.
Qed.

Lemma counter_get_In (c : counter) (k : string) (n : nat) :
  NoDup (map fst c) -> In (k, n) c -> counter_get c k = n.
Proof.
  induction c as [|[a m] c IH]; simpl; intros Hn Hin; [contradiction|].
  inversion Hn; subst. destruct Hin as [H|H].
  - injection H as -> ->. now rewrite String.eqb_refl.
  - destruct (String.eqb a k) eqn:E; [|now apply IH].
    apply String.eqb_eq in E. subst a. exfalso.
    match goal with Hk : ~ In k _ |- _ => apply Hk end.
    change k with (fst (k, n)). now apply in_map.
Qed.

Lemma counter_get_key (c : counter) (k : string) :
  In k (map fst c) -> In (k, counter_get c k) c.
Proof.
  induction c as [|[a m] c IH]; simpl; [contradiction|].
  destruct (String.eqb a k) eqn:E.
  - apply String.eqb_eq in E. subst a. now left.
  - intros [H|H]; [apply String.eqb_neq in E; contradiction|].
    right. now apply IH.
Qed.

Lemma Counter_entries (l : list string) :
  NoDup (map fst (Counter l)) /\
  (forall k n, In (k, n) (Counter l) <->
               1 <= n /\ n = count_occ string_dec l k) /\
  list_sum (map snd (Counter l)) = length l.
Proof.
  destruct (@Counter_keys l [] (NoDup_nil _)) as [H1 [H2 H3]].
  fold (Counter l) in *.
  assert (Hget : forall k, counter_get (Counter l) k = count_occ string_dec l k).
  { intros k. unfold Counter. now rewrite counter_get_fold. }
  split; [exact H1|]. split; [|exact H3].
  intros k n. split.
  - intros Hin. rewrite <- Hget, (@counter_get_In _ k n H1 Hin).
    split; [|reflexivity].
    assert (Hk : In k l).
    { assert (H : In k (map fst (Counter l))).
      { change k with (fst (k, n)). now apply in_map. }
      apply H2 in H. destruct H as [[]|H]. exact H. }
    apply (count_occ_In string_dec) in Hk.
    rewrite <- (@counter_get_In _ k n H1 Hin), Hget. lia.
  - intros [Hn ->]. rewrite <- Hget. apply counter_get_key. apply H2. right.
    apply (count_occ_In string_dec). lia.
Qed.

(** The counter of line 79 has one entry for each distinct field of the
    [sources] cells, with the number of times the field occurs, which is
    at least 1; the counts add up to the number of fields. *)
Theorem source_counts_entries (edges : edges_df) :
  NoDup (map fst (source_counts edges)) /\
  (forall doc n,
     In (doc, n) (source_counts edges) <->
     1 <= n /\ n = count_occ string_dec (all_sources edges) doc) /\
  list_sum (map snd (source_counts edges)) = length (all_sources edges).
Proof. apply Counter_entries. Qed.

Section TopByCount.
Variable K : Type.

Lemma count_lt_asym (x y : K * nat) :
  (snd x <? snd y) = true -> (snd y <? snd x) = false.
Proof. rewrite Nat.ltb_lt, Nat.ltb_ge. lia. Qed.

Lemma count_not_below_iff (x y : K * nat) :
  not_below (fun x y => snd x <? snd y) x y <-> snd y <= snd x.
Proof. unfold not_below. apply Nat.ltb_ge. Qed.

Lemma count_not_below_trans (x y z : K * nat) :
  not_below (fun x y => snd x <? snd y) x y ->
  not_below (fun x y => snd x <? snd y) y z ->
  not_below (fun x y => snd x <? snd y) x z.
Proof. rewrite !count_not_below_iff. lia. Qed.

(** The head of a list sorted by count, largest first. *)
Lemma top_by_count (n : nat) (l : list (K * nat)) :
  length (firstn n (sorted_reverse (fun x y => snd x <? snd y) l)) <= n /\
  StronglySorted (fun x y => snd y <= snd x)
                 (firstn n (sorted_reverse (fun x y => snd x <? snd y) l)) /\
  exists rest,
    Permutation (firstn n (sorted_reverse (fun x y => snd x <? snd y) l) ++ rest) l /\
    (forall x y,
       In x (firstn n (sorted_reverse (fun x y => snd x <? snd y) l)) ->
       In y rest -> snd y <= snd x) /\
    (forall d,
       filter (fun x => snd x =? d)
              (firstn n (sorted_reverse (fun x y => snd x <? snd y) l) ++ rest) =
       filter (fun x => snd x =? d) l).
Proof.
  set (lt := fun x y : K * nat => snd x <? snd y).
  pose proof (sorted_reverse_sorted count_lt_asym count_not_below_trans l) as Hs.
  fold lt in Hs.
  split; [apply firstn_le_length|]. split.
  - apply StronglySorted_firstn.
    eapply StronglySorted_impl; [|exact Hs].
    intros x y. apply count_not_below_iff.
  - exists (skipn n (sorted_reverse lt l)).
    rewrite firstn_skipn. split; [apply sorted_reverse_perm|]. split.
    + intros x y Hx Hy. apply count_not_below_iff.
      rewrite <- (firstn_skipn n (sorted_reverse lt l)) in Hs.
      exact (StronglySorted_app_le _ _ Hs x y Hx Hy).
    + intros d. apply sorted_reverse_stable.
      intros a b Ha Hb. apply Nat.eqb_eq in Ha, Hb. unfold lt.
      apply Nat.ltb_ge. lia.
Qed.
End TopByCount.

(** The table of documents (lines 81-84) has at most 10 rows, in
    descending order of count; a row is the stripped form of a counted
    field with that field's count, fields of equal count stand in the
    order they were first met, and a field left out has a count no
    greater than any shown. *)
Theorem source_df_top_documents (edges : edges_df) :
  length (source_df edges) <= 10 /\
  StronglySorted (fun x y => snd y <= snd x) (source_df edges) /\
  exists shown rest,
    source_df edges = map (fun dc => (strip (fst dc), snd dc)) shown /\
    Permutation (shown ++ rest) (source_counts edges) /\
    (forall x y, In x shown -> In y rest -> snd y <= snd x) /\
    (forall n, filter (fun x => snd x =? n) (shown ++ rest) =
               filter (fun x => snd x =? n) (source_counts edges)).
Proof.
  unfold source_df, most_common.
  destruct (top_by_count 10 (source_counts edges)) as [Hl [Hs [rest [Hp [Hr Ht]]]]].
  split; [now rewrite length_map|]. split.
  - apply StronglySorted_map_inv with (f := fun dc : string * nat => (strip (fst dc), snd dc))
                                      (R := fun x y : string * nat => snd y <= snd x).
    exact Hs.
  - exists (firstn 10 (sorted_reverse (fun x y => snd x <? snd y) (source_counts edges))),
           rest.
    now repeat split.
Qed.

(* ------------------------------------------------------------------ *)
(** ** The sidebar: degrees *)

Lemma list_sum_indicator (x : string) (nodes : list string) :
  NoDup nodes -> In x nodes ->
  list_sum (map (fun v => if String.eqb x v then 1 else 0) nodes) = 1.
Proof.
  induction nodes as [|v nodes IH]; simpl; intros Hn Hx; [contradiction|].
  inversion Hn as [|? ? Hv Hn']; subst.
  destruct (String.eqb x v) eqn:E.
  - apply String.eqb_eq in E. subst v.
    assert (H0 : list_sum (map (fun v => if String.eqb x v then 1 else 0) nodes) = 0).
    { clear IH Hn Hn' Hx. induction nodes as [|w nodes IH]; simpl; [reflexivity|].
      destruct (String.eqb x w) eqn:Ew.
      - apply String.eqb_eq in Ew. subst w. exfalso. apply Hv. now left.
      - apply IH. intros H. apply Hv. now right. }
    now rewrite H0.
  - destruct Hx as [->|Hx]; [rewrite String.eqb_refl in E; discriminate|].
    now apply IH.
Qed.

Lemma list_sum_map_add (A : Type) (f g : A -> nat) (l : list A) :
  list_sum (map (fun a => f a + g a) l) = list_sum (map f l) + list_sum (map g l).
Proof. induction l as [|a l IH]; simpl; [reflexivity | rewrite IH; lia]. Qed.

Lemma count_ends (f : string * string -> string) (nodes : list string)
  (es : list (string * string)) :
  NoDup nodes -> (forall e, In e es -> In (f e) nodes) ->
  list_sum (map (fun v => length (filter (fun e => String.eqb (f e) v) es)) nodes) =
  length es.
Proof.
  intros Hn. induction es as [|e es IH]; intros Hf.
  - simpl. clear Hn Hf. induction nodes as [|v nodes IHn]; [reflexivity|].
    simpl. exact IHn.
  - rewrite (map_ext _ (fun v => (if String.eqb (f e) v then 1 else 0) +
                                 length (filter (fun e => String.eqb (f e) v) es))).
    + rewrite list_sum_map_add, IH by (intros; apply Hf; now right).
      rewrite list_sum_indicator; [reflexivity | exact Hn | apply Hf; now left].
    + intros v. simpl. now destruct (String.eqb (f e) v).
Qed.

(** Every edge has two ends: the degrees of a graph add up to twice the
    number of its edges, so the sidebar's "Average Connections" (line 31)
    is the mean degree. *)
Theorem degrees_sum_to_twice_the_edges (G : graph) :
  well_formed G = true ->
  list_sum (map snd (degree_dict G)) = 2 * length (G_edges G) /\
  (G_nodes G <> [] ->
   average_connections G =
   Ok (inject_Z (Z.of_nat (list_sum (map snd (degree_dict G)))) /
       inject_Z (Z.of_nat (length (G_nodes G))))%Q).
Proof.
  intros Hwf. apply well_formed_spec in Hwf. destruct Hwf as [Hn He].
  assert (E : list_sum (map snd (degree_dict G)) = 2 * length (G_edges G)).
  { unfold degree_dict, degree. rewrite map_map. simpl.
    rewrite list_sum_map_add.
    assert (H1 : forall e, In e (G_edges G) -> In (fst e) (G_nodes G))
      by (intros [a b] H; now apply (He a b)).
    assert (H2 : forall e, In e (G_edges G) -> In (snd e) (G_nodes G))
      by (intros [a b] H; now apply (He a b)).
    rewrite (@count_ends fst _ _ Hn H1), (@count_ends snd _ _ Hn H2). lia. }
  split; [exact E|].
  intros Hne. unfold average_connections.
  destruct (G_nodes G) eqn:En; [congruence|].
  rewrite E, Nat2Z.inj_mul. reflexivity.
Qed.

Lemma degrees_sum_to_twice_the_edges_witness :
  let G := Graph ["A"; "B"; "C"; "D"] [("A", "B"); ("C", "B"); ("B", "B")] true in
  list_sum (map snd (degree_dict G)) = 2 * length (G_edges G) /\
  (G_nodes G <> [] ->
   average_connections G =
   Ok (inject_Z (Z.of_nat (list_sum (map snd (degree_dict G)))) /
       inject_Z (Z.of_nat (length (G_nodes G))))%Q).
Proof.
  intros G. apply (degrees_sum_to_twice_the_edges G). reflexivity.
Defined.

(** The sidebar lists at most 5 entities, each with its degree, in
    descending order of degree; entities of equal degree stand in node
    order, and an entity left out has a degree no greater than any
    listed. *)
Theorem top_entities_most_connected (G : graph) :
  length (top_entities G) <= 5 /\
  StronglySorted (fun x y => snd y <= snd x) (top_entities G) /\
  (forall v d, In (v, d) (top_entities G) ->
               In v (G_nodes G) /\ d = degree G v) /\
  exists rest,
    Permutation (top_entities G ++ rest) (degree_dict G) /\
    (forall x y, In x (top_entities G) -> In y rest -> snd y <= snd x) /\
    (forall d, filter (fun x => snd x =? d) (top_entities G ++ rest) =
               filter (fun x => snd x =? d) (degree_dict G)).
Proof.
  unfold top_entities.
  destruct (top_by_count 5 (degree_dict G)) as [Hl [Hs [rest [Hp [Hr Ht]]]]].
  split; [exact Hl|]. split; [exact Hs|]. split.
  - intros v d Hin.
    assert (H : In (v, d) (degree_dict G)).
    { apply (Permutation_in _ Hp). apply in_or_app. now left. }
    unfold degree_dict in H. apply in_map_iff in H.
    destruct H as [w [[= -> <-] Hw]]. now split.
  - exists rest. now repeat split.
Qed.

(* ------------------------------------------------------------------ *)
(** ** Tab 1: the two charts *)

Section TakeSorted.
Variable A : Type.
Variable key : A -> Z.
Variable argsort : list Z -> list nat.
Hypothesis argsort_sorts : sorts argsort.

Lemma take_map_key (df : list A) (idx : list nat) :
  (forall i, In i idx -> i < length df) ->
  map key (take df idx) = map (fun i => nth i (map key df) 0%Z) idx.
Proof.
  unfold take. induction idx as [|i idx IH]; intros H; simpl; [reflexivity|].
  rewrite map_app, IH by (intros j Hj; apply H; now right). f_equal.
  assert (Hi : i < length df) by (apply H; now left).
  destruct (nth_error df i) as [r|] eqn:E.
  - simpl. f_equal. symmetry. apply nth_error_nth. now apply map_nth_error.
  - apply nth_error_None in E. lia.
Qed.

Lemma take_nargsort_perm (df : list A) :
  Permutation (take df (nargsort_desc argsort (map key df))) df.
Proof.
  apply take_perm. rewrite <- (length_map key df).
  now apply nargsort_desc_perm.
Qed.

Lemma take_nargsort_sorted (df : list A) :
  StronglySorted (fun x y => (key y <= key x)%Z)
                 (take df (nargsort_desc argsort (map key df))).
Proof.
  apply StronglySorted_map with (f := key) (R := fun a b => (b <= a)%Z).
  rewrite take_map_key.
  - rewrite (nargsort_desc_values argsort_sorts). apply StronglySorted_rev.
    apply Sorted_StronglySorted; [intros a b c; apply Z.le_trans|].
    apply argsort_sorts.
  - intros i Hi.
    apply (Permutation_in _ (nargsort_desc_perm argsort_sorts _)), in_seq in Hi.
    rewrite length_map in Hi. lia.
Qed.
End TakeSorted.

Lemma value_counts_facts (argsort : list Z -> list nat)
  (col : list (option string)) :
  sorts argsort ->
  Permutation (value_counts argsort col) (Counter (dropna col)) /\
  StronglySorted (fun x y => snd y <= snd x) (value_counts argsort col).
Proof.
  intros Hs. unfold value_counts. split.
  - apply (take_nargsort_perm (fun kc : string * nat => Z.of_nat (snd kc)) Hs).
  - eapply StronglySorted_impl;
      [|apply (take_nargsort_sorted (fun kc : string * nat => Z.of_nat (snd kc)) Hs)].
    intros x y H. simpl in H. lia.
Qed.

Lemma dropna_map_Some (A B : Type) (f : A -> B) (l : list A) :
  dropna (map (fun a => Some (f a)) l) = map f l.
Proof. induction l as [|a l IH]; simpl; [reflexivity | now rewrite IH]. Qed.

Lemma count_occ_map_length (A : Type) (f : A -> string) (k : string) (l : list A) :
  count_occ string_dec (map f l) k =
  length (filter (fun a => String.eqb (f a) k) l).
Proof. symmetry. apply length_filter_count_occ. Qed.

(** The pie chart of line 55, whatever kernel sorts it: it has one slice
    for each label of the entity table, as large as the number of
    entities with that label, the slices in descending order of size;
    the sizes add up to the number of entities. *)
Theorem entity_types_counts_entities (argsort : list Z -> list nat)
  (nodes : nodes_df) :
  sorts argsort ->
  NoDup (map fst (entity_types argsort nodes)) /\
  (forall lbl n,
     In (lbl, n) (entity_types argsort nodes) <->
     1 <= n /\ n = length (filter (fun row => String.eqb (label row) lbl) nodes)) /\
  StronglySorted (fun x y => snd y <= snd x) (entity_types argsort nodes) /\
  list_sum (map snd (entity_types argsort nodes)) = length nodes.
Proof.
  intros Hs. unfold entity_types.
  destruct (value_counts_facts (map (fun row => Some (label row)) nodes) Hs)
    as [Hp Hd].
  rewrite dropna_map_Some in Hp.
  destruct (Counter_entries (map label nodes)) as [H1 [H2 H3]].
  split; [|split; [|split]].
  - eapply Permutation_NoDup; [|exact H1].
    apply Permutation_map, Permutation_sym, Hp.
  - intros lbl n. rewrite <- count_occ_map_length, <- H2. split; intros H.
    + now apply (Permutation_in _ Hp).
    + now apply (Permutation_in _ (Permutation_sym Hp)).
  - exact Hd.
  - rewrite (Permutation_map snd Hp) at 1.
    + rewrite H3. apply length_map.
Qed.

Lemma entity_types_counts_entities_witness :
  let nodes := [NodeRow (Some "TP53") "gene" None None;
                NodeRow (Some "p53") "protein" None None;
                NodeRow (Some "BRCA1") "gene" None None] in
  NoDup (map fst (entity_types argsort_stable nodes)) /\
  (forall lbl n,
     In (lbl, n) (entity_types argsort_stable nodes) <->
     1 <= n /\ n = length (filter (fun row => String.eqb (label row) lbl) nodes)) /\
  StronglySorted (fun x y => snd y <= snd x) (entity_types argsort_stable nodes) /\
  list_sum (map snd (entity_types argsort_stable nodes)) = length nodes.
Proof.
  intros nodes.
  exact (@entity_types_counts_entities argsort_stable nodes argsort_stable_sorts).
Defined.

(** The bar chart of line 66, whatever kernel sorts it: at most 10 bars,
    in descending order of length; a bar is a relationship type with the
    number of relationships of that type, and a type left out has no
    more relationships than any type shown. *)
Theorem rel_types_top_ten (argsort : list Z -> list nat) (edges : edges_df) :
  sorts argsort ->
  length (rel_types argsort edges) <= 10 /\
  StronglySorted (fun x y => snd y <= snd x) (rel_types argsort edges) /\
  (forall t n,
     In (t, n) (rel_types argsort edges) ->
     1 <= n /\ n = length (filter (fun e => String.eqb (predicate e) t) edges)) /\
  (forall e, In e edges ->
     (exists n, In (predicate e, n) (rel_types argsort edges)) \/
     (forall x, In x (rel_types argsort edges) ->
        length (filter (fun e' => String.eqb (predicate e') (predicate e)) edges)
        <= snd x)).
Proof.
  intros Hs. unfold rel_types, head.
  destruct (value_counts_facts (map (fun e => Some (predicate e)) edges) Hs)
    as [Hp Hd].
  rewrite dropna_map_Some in Hp.
  destruct (Counter_entries (map predicate edges)) as [H1 [H2 H3]].
  set (vc := value_counts argsort (map (fun e => Some (predicate e)) edges)) in *.
  split; [apply firstn_le_length|]. split; [now apply StronglySorted_firstn|].
  split.
  - intros t n H. apply In_firstn in H. apply (Permutation_in _ Hp) in H.
    rewrite <- count_occ_map_length. now apply H2.
  - intros e He.
    set (n := length (filter (fun e' => String.eqb (predicate e') (predicate e)) edges)).
    assert (Hin : In (predicate e, n) vc).
    { apply (Permutation_in _ (Permutation_sym Hp)). apply H2.
      unfold n. rewrite <- count_occ_map_length. split; [|reflexivity].
      apply (count_occ_In string_dec). now apply in_map. }
    rewrite <- (firstn_skipn 10 vc) in Hin, Hd.
    apply in_app_or in Hin. destruct Hin as [Hin|Hin].
    + left. now exists n.
    + right. intros x Hx.
      exact (StronglySorted_app_le _ _ Hd x (predicate e, n) Hx Hin).
Qed.

Lemma rel_types_top_ten_witness :
  let edges := [EdgeRow "A" "regulates" "B" 3 None;
                EdgeRow "B" "regulates" "C" 1 None;
                EdgeRow "A" "interacts" "C" 5 None] in
  length (rel_types argsort_reversing edges) <= 10 /\
  StronglySorted (fun x y => snd y <= snd x) (rel_types argsort_reversing edges) /\
  (forall t n,
     In (t, n) (rel_types argsort_reversing edges) ->
     1 <= n /\ n = length (filter (fun e => String.eqb (predicate e) t) edges)) /\
  (forall e, In e edges ->
     (exists n, In (predicate e, n) (rel_types argsort_reversing edges)) \/
     (forall x, In x (rel_types argsort_reversing edges) ->
        length (filter (fun e' => String.eqb (predicate e') (predicate e)) edges)
        <= snd x)).
Proof.
  intros edges.
  exact (@rel_types_top_ten argsort_reversing edges argsort_reversing_sorts).
Defined.

(* ------------------------------------------------------------------ *)
(** ** Tab 3: the type filter's choices, the slider and the filter *)

Lemma nat_of_ascii_inj (x y : ascii) : nat_of_ascii x = nat_of_ascii y -> x = y.
Proof.
  intros H. rewrite <- (ascii_nat_embedding x), <- (ascii_nat_embedding y).
  now rewrite H.
Qed.

Lemma str_ltb_irrefl (a : list ascii) : str_ltb a a = false.
Proof.
  induction a as [|x a IH]; simpl; [reflexivity|].
  now rewrite Nat.ltb_irrefl, Nat.eqb_refl, IH.
Qed.

Lemma str_ltb_trans (a b c : list ascii) :
  str_ltb a b = true -> str_ltb b c = true -> str_ltb a c = true.
Proof.
  revert b c. induction a as [|x a IH]; intros [|y b] [|z c]; simpl;
    try discriminate; try reflexivity.
  rewrite !orb_true_iff, !andb_true_iff, !Nat.ltb_lt, !Nat.eqb_eq.
  intros [H1|[H1 H1']] [H2|[H2 H2']].
  - left. lia.
  - left. lia.
  - left. lia.
  - right. split; [lia | now apply IH with b].
Qed.

Lemma str_ltb_total (a b : list ascii) :
  str_ltb a b = false -> str_ltb b a = false -> a = b.
Proof.
  revert b. induction a as [|x a IH]; intros [|y b]; simpl;
    try discriminate; try reflexivity.
  rewrite !orb_false_iff, !andb_false_iff, !Nat.ltb_ge, !Nat.eqb_neq.
  intros [H1 H1'] [H2 H2'].
  assert (E : nat_of_ascii x = nat_of_ascii y) by lia.
  apply nat_of_ascii_inj in E. subst y. f_equal. apply IH.
  - destruct H1' as [H|H]; [congruence | exact H].
  - destruct H2' as [H|H]; [congruence | exact H].
Qed.

Lemma str_lt_asym (a b : string) : str_lt a b = true -> str_lt b a = false.
Proof.
  unfold str_lt. intros H. destruct (str_ltb (chars b) (chars a)) eqn:E;
    [|reflexivity].
  pose proof (str_ltb_trans _ _ _ H E) as Hc.
  rewrite str_ltb_irrefl in Hc. discriminate.
Qed.

Lemma chars_inj (a b : string) : chars a = chars b -> a = b.
Proof.
  unfold chars. intros H.
  rewrite <- (string_of_list_ascii_of_string a),
          <- (string_of_list_ascii_of_string b).
  now rewrite H.
Qed.

Lemma str_lt_total (a b : string) :
  str_lt a b = false -> str_lt b a = false -> a = b.
Proof. unfold str_lt. intros H1 H2. apply chars_inj. now apply str_ltb_total. Qed.

Lemma str_lt_negtrans (a b c : string) :
  str_lt b a = false -> str_lt c b = false -> str_lt c a = false.
Proof.
  intros H1 H2. destruct (str_lt c a) eqn:E; [|reflexivity]. exfalso.
  destruct (str_lt b c) eqn:Ebc.
  - unfold str_lt in *. rewrite (str_ltb_trans _ _ _ Ebc E) in H1. discriminate.
  - assert (b = c) by now apply str_lt_total. subst c. congruence.
Qed.

Section SortedFacts.
Variable A : Type.
Variable lt : A -> A -> bool.

Lemma insert_asc_perm (x : A) (l : list A) :
  Permutation (insert_asc lt x l) (x :: l).
Proof.
  induction l as [|y l IH]; simpl; [apply Permutation_refl|].
  destruct (lt y x).
  - eapply Permutation_trans; [apply perm_skip, IH | apply perm_swap].
  - apply Permutation_refl.
Qed.

Lemma sorted_perm (l : list A) : Permutation (sorted lt l) l.
Proof.
  induction l as [|x l IH]; simpl; [constructor|].
  eapply Permutation_trans; [apply insert_asc_perm | now apply perm_skip].
Qed.

Hypothesis lt_asym : forall x y, lt x y = true -> lt y x = false.
Hypothesis lt_negtrans :
  forall x y z, lt y x = false -> lt z y = false -> lt z x = false.

Lemma insert_asc_sorted (x : A) (l : list A) :
  StronglySorted (fun a b => lt b a = false) l ->
  StronglySorted (fun a b => lt b a = false) (insert_asc lt x l).
Proof.
  induction l as [|y l IH]; simpl; intros Hs; [repeat constructor|].
  inversion Hs as [|? ? Hl Hy]; subst.
  destruct (lt y x) eqn:E.
  - constructor; [now apply IH|].
    rewrite Forall_forall in *. intros z Hz.
    apply (Permutation_in _ (insert_asc_perm x l)) in Hz.
    destruct Hz as [<-|Hz]; [now apply lt_asym | now apply Hy].
  - constructor; [exact Hs|]. constructor; [exact E|].
    rewrite Forall_forall in *. intros z Hz.
    apply lt_negtrans with y; [exact E | now apply Hy].
Qed.

Lemma sorted_sorted (l : list A) :
  StronglySorted (fun a b => lt b a = false) (sorted lt l).
Proof.
  induction l as [|x l IH]; simpl; [constructor | now apply insert_asc_sorted].
Qed.
End SortedFacts.

Lemma StronglySorted_strict (A : Type) (R S : A -> A -> Prop) (l : list A) :
  (forall a b, R a b -> a <> b -> S a b) ->
  NoDup l -> StronglySorted R l -> StronglySorted S l.
Proof.
  intros H Hn Hs. induction Hs as [|x l Hs IH Hx]; [constructor|].
  inversion Hn as [|? ? Hnx Hn']; subst. constructor; [now apply IH|].
  rewrite Forall_forall in *. intros y Hy. apply H; [now apply Hx|].
  intros ->. contradiction.
Qed.

Lemma unique_spec (col : list string) :
  NoDup (unique col) /\ forall v, In v (unique col) <-> In v col.
Proof.
  unfold unique. split; [apply discover_NoDup|].
  intros v. rewrite discover_In. simpl. tauto.
Qed.

Lemma filtered_edges_filter (edges : edges_df) (t : string) (w : Z) :
  filtered_edges edges t w = filter (keeps t w) edges.
Proof.
  unfold filtered_edges, keeps. destruct (String.eqb t "All"); simpl.
  - apply filter_ext. intros e. now rewrite andb_true_r.
  - apply filter_filter.
Qed.

(** The choices of the type filter: ["All"], then the relationship types
    of the table, each once, in ascending order; every type offered
    selects, at the least strength, at least one relationship (weights
    being at least 1), and relationships of that type only. *)
Theorem relationship_options_are_the_types (edges : edges_df) :
  exists types,
    relationship_options edges = "All" :: types /\
    NoDup types /\
    StronglySorted (fun a b => str_lt a b = true) types /\
    (forall t, In t types <-> exists e, In e edges /\ predicate e = t) /\
    (forall t, In t types -> t <> "All" ->
       (forall e, In e edges -> (1 <= weight e)%Z) ->
       filtered_edges edges t 1 <> [] /\
       forall e, In e (filtered_edges edges t 1) -> predicate e = t).
Proof.
  exists (sorted str_lt (unique (map predicate edges))).
  destruct (unique_spec (map predicate edges)) as [Hn Hin].
  pose proof (sorted_perm str_lt (unique (map predicate edges))) as Hp.
  assert (Hnd : NoDup (sorted str_lt (unique (map predicate edges)))).
  { eapply Permutation_NoDup; [apply Permutation_sym, Hp | exact Hn]. }
  assert (Hty : forall t, In t (sorted str_lt (unique (map predicate edges))) <->
                          exists e, In e edges /\ predicate e = t).
  { intros t. split.
    - intros H. apply (Permutation_in _ Hp), Hin, in_map_iff in H.
      destruct H as [e [E He]]. now exists e.
    - intros [e [He E]]. apply (Permutation_in _ (Permutation_sym Hp)), Hin.
      subst t. now apply in_map. }
  split; [reflexivity|]. split; [exact Hnd|]. split; [|split; [exact Hty|]].
  - apply StronglySorted_strict with (R := fun a b => str_lt b a = false);
      [|exact Hnd | apply (@sorted_sorted _ str_lt str_lt_asym str_lt_negtrans)].
    intros a b H Hne. destruct (str_lt a b) eqn:E; [reflexivity|].
    exfalso. apply Hne. now apply str_lt_total.
  - intros t Ht Hne Hw. apply Hty in Ht. destruct Ht as [e [He E]].
    rewrite filtered_edges_filter.
    assert (Ek : String.eqb t "All" = false) by now apply String.eqb_neq.
    split.
    + intros Hnil.
      assert (Hin' : In e (filter (keeps t 1) edges)).
      { apply filter_In. split; [exact He|]. unfold keeps.
        rewrite Ek, E, String.eqb_refl. simpl. rewrite andb_true_r.
        apply Z.leb_le. now apply Hw. }
      rewrite Hnil in Hin'. contradiction.
    + intros e' He'. apply filter_In in He'. destruct He' as [_ Hk].
      unfold keeps in Hk. rewrite Ek in Hk. simpl in Hk.
      apply andb_true_iff in Hk. destruct Hk as [_ Hk].
      now apply String.eqb_eq in Hk.
Qed.

(** The slider runs from 1 to the largest weight: under ["All"] no
    position of it empties the table, and whatever the type, a strength
    above the largest weight would leave nothing. *)
Theorem slider_range_keeps_a_relationship (edges : edges_df) (m : Z) :
  max_weight edges = Ok m ->
  (forall w, (w <= m)%Z -> filtered_edges edges "All" w <> []) /\
  (forall t w, (m < w)%Z -> filtered_edges edges t w = []).
Proof.
  unfold max_weight. destruct (series_max (map weight edges)) as [m'|] eqn:E;
    [|discriminate].
  intros [= ->]. apply series_max_spec in E. destruct E as [Hin Hall].
  rewrite Forall_forall in Hall. split.
  - intros w Hw Hnil. apply in_map_iff in Hin. destruct Hin as [e [Ee He]].
    assert (H : In e (filtered_edges edges "All" w)).
    { rewrite filtered_edges_filter. apply filter_In. split; [exact He|].
      unfold keeps. simpl. rewrite andb_true_r. apply Z.leb_le. lia. }
    rewrite Hnil in H. contradiction.
  - intros t w Hw. rewrite filtered_edges_filter.
    destruct (filter (keeps t w) edges) as [|e l] eqn:Ef; [reflexivity|].
    assert (H : In e (filter (keeps t w) edges)) by (rewrite Ef; now left).
    apply filter_In in H. destruct H as [He Hk]. unfold keeps in Hk.
    apply andb_true_iff in Hk. destruct Hk as [Hk _]. apply Z.leb_le in Hk.
    specialize (Hall (weight e) (in_map weight _ _ He)). lia.
Qed.

Lemma slider_range_keeps_a_relationship_witness :
  let edges := [EdgeRow "A" "regulates" "B" 3 None;
                EdgeRow "B" "regulates" "C" 1 None;
                EdgeRow "A" "interacts" "C" 5 None] in
  (forall w, (w <= 5)%Z -> filtered_edges edges "All" w <> []) /\
  (forall t w, (5 < w)%Z -> filtered_edges edges t w = []).
Proof.
  intros edges. apply (@slider_range_keeps_a_relationship edges 5%Z).
  reflexivity.
Defined.

Lemma keeps_max (t : string) (w1 w2 : Z) (e : edge_row) :
  keeps t w1 e && keeps t w2 e = keeps t (Z.max w1 w2) e.
Proof.
  unfold keeps.
  destruct (String.eqb t "All" || String.eqb (predicate e) t);
    rewrite ?andb_true_r, ?andb_false_r; [|reflexivity].
  apply eq_true_iff_eq. rewrite andb_true_iff, !Z.leb_le. lia.
Qed.

Lemma length_filter_le (A : Type) (p : A -> bool) (l : list A) :
  length (filter p l) <= length l.
Proof.
  induction l as [|x l IH]; simpl; [lia|]. destruct (p x); simpl; lia.
Qed.

(** Filtering what was filtered: a second pass with the same type keeps
    the rows of the greater of the two strengths, so moving the slider up
    never shows more, and choosing a type shows no row that ["All"] does
    not show at the same strength. *)
Theorem filtered_edges_compose (edges : edges_df) (t : string) (w1 w2 : Z) :
  filtered_edges (filtered_edges edges t w1) t w2 =
    filtered_edges edges t (Z.max w1 w2) /\
  ((w1 <= w2)%Z ->
   length (filtered_edges edges t w2) <= length (filtered_edges edges t w1)) /\
  filtered_edges edges t w1 =
    filter (fun e => String.eqb t "All" || String.eqb (predicate e) t)
           (filtered_edges edges "All" w1).
Proof.
  assert (E : filtered_edges (filtered_edges edges t w1) t w2 =
              filtered_edges edges t (Z.max w1 w2)).
  { rewrite !filtered_edges_filter, filter_filter. apply filter_ext.
    intros e. apply keeps_max. }
  split; [exact E|]. split.
  - intros Hw. rewrite <- (Z.max_r w1 w2 Hw), <- E.
    rewrite (filtered_edges_filter (filtered_edges edges t w1)).
    apply length_filter_le.
  - rewrite !filtered_edges_filter, filter_filter. apply filter_ext.
    intros e. unfold keeps. simpl. now rewrite andb_true_r.
Qed.

Lemma filtered_edges_compose_witness :
  let edges := [EdgeRow "A" "regulates" "B" 3 None;
                EdgeRow "B" "regulates" "C" 1 None;
                EdgeRow "A" "interacts" "C" 5 None] in
  length (filtered_edges edges "regulates" 2) <=
  length (filtered_edges edges "regulates" 1).
Proof.
  intros edges.
  apply (proj1 (proj2 (filtered_edges_compose edges "regulates" 1 2))). lia.
Defined.

(** The message of line 170 is shown exactly when no filtered
    relationship has a weight above 2, whatever kernel sorts the list;
    and with the slider at 3 or more every filtered relationship is on
    the high-confidence list before its cut to 10. *)
Theorem consensus_empty_or_all (argsort : list Z -> list nat)
  (filtered : edges_df) :
  sorts argsort ->
  (consensus argsort filtered = [] <->
   forall e, In e filtered -> (weight e <= 2)%Z) /\
  (high_confidence argsort filtered = [] <-> consensus argsort filtered = []) /\
  (forall (edges : edges_df) (t : string) (min_weight : Z),
     (3 <= min_weight)%Z ->
     Permutation (consensus argsort (filtered_edges edges t min_weight))
                 (filtered_edges edges t min_weight)).
Proof.
  intros Hs.
  assert (Hperm : forall f, Permutation (consensus argsort f)
                                        (filter (fun e => (2 <? weight e)%Z) f)).
  { intros f. unfold consensus. apply (sort_values_desc_perm Hs). }
  split; [|split].
  - split.
    + intros Hnil e He.
      destruct (Z.ltb_spec 2 (weight e)) as [Hlt|Hle]; [|exact Hle].
      assert (H : In e (consensus argsort filtered)).
      { apply (Permutation_in _ (Permutation_sym (Hperm filtered))).
        apply filter_In. split; [exact He | now apply Z.ltb_lt]. }
      rewrite Hnil in H. contradiction.
    + intros H. destruct (consensus argsort filtered) as [|e l] eqn:E;
        [reflexivity|].
      assert (Hin : In e (consensus argsort filtered)) by (rewrite E; now left).
      apply (Permutation_in _ (Hperm filtered)), filter_In in Hin.
      destruct Hin as [He Hw]. apply Z.ltb_lt in Hw. specialize (H e He). lia.
  - unfold high_confidence, head.
    destruct (consensus argsort filtered); simpl; split; congruence.
  - intros edges t w Hw.
    eapply Permutation_trans; [apply Hperm|].
    rewrite filter_all; [apply Permutation_refl|].
    intros e He. rewrite filtered_edges_filter in He.
    apply filter_In in He. destruct He as [_ Hk]. unfold keeps in Hk.
    apply andb_true_iff in Hk. destruct Hk as [Hk _]. apply Z.leb_le in Hk.
    apply Z.ltb_lt. lia.
Qed.

Lemma consensus_empty_or_all_witness :
  let filtered := [EdgeRow "A" "regulates" "B" 2 None;
                   EdgeRow "B" "regulates" "C" 1 None] in
  (consensus argsort_stable filtered = [] <->
   forall e, In e filtered -> (weight e <= 2)%Z) /\
  (high_confidence argsort_stable filtered = [] <->
   consensus argsort_stable filtered = []) /\
  (forall (edges : edges_df) (t : string) (min_weight : Z),
     (3 <= min_weight)%Z ->
     Permutation (consensus argsort_stable (filtered_edges edges t min_weight))
                 (filtered_edges edges t min_weight)).
Proof.
  intros filtered.
  exact (@consensus_empty_or_all argsort_stable filtered argsort_stable_sorts).
Defined.

(** Rows of distinct weights have one descending order. *)
Lemma descending_unique (l1 l2 : edges_df) :
  NoDup (map weight l1) ->
  Permutation l1 l2 ->
  StronglySorted (fun x y => (weight y <= weight x)%Z) l1 ->
  StronglySorted (fun x y => (weight y <= weight x)%Z) l2 ->
  l1 = l2.
Proof.
  revert l2. induction l1 as [|x t1 IH]; intros l2 Hnd Hp H1 H2.
  - apply Permutation_nil in Hp. now subst.
  - destruct l2 as [|y t2].
    { apply Permutation_sym, Permutation_nil in Hp. discriminate. }
    inversion H1 as [|? ? H1' A1]; subst.
    inversion H2 as [|? ? H2' A2]; subst.
    inversion Hnd as [|? ? Hx Hnd']; subst.
    rewrite Forall_forall in A1, A2.
    assert (E : x = y).
    { assert (Hx2 : In x (y :: t2)) by (apply (Permutation_in _ Hp); now left).
      destruct Hx2 as [E|Hx2]; [now symmetry|].
      assert (Hy1 : In y (x :: t1)).
      { apply (Permutation_in _ (Permutation_sym Hp)). now left. }
      destruct Hy1 as [E|Hy1]; [exact E|].
      exfalso. apply Hx.
      assert (Ew : weight x = weight y).
      { specialize (A1 y Hy1). specialize (A2 x Hx2). lia. }
      rewrite Ew. now apply in_map. }
    subst y. f_equal. apply IH; try assumption.
    now apply Permutation_cons_inv in Hp.
Qed.

(** Line 162, for whatever sorting kernel [sort_values] runs: the table
    is a rearrangement of the filtered relationships of weight above 2,
    it descends by weight, and its first row weighs at least as much as
    every filtered relationship of weight above 2; where all weights
    differ it is one list, the same for every kernel. *)
Theorem consensus_descending (argsort : list Z -> list nat)
  (filtered : edges_df) :
  sorts argsort ->
  Permutation (consensus argsort filtered)
              (filter (fun e => (2 <? weight e)%Z) filtered) /\
  StronglySorted (fun x y => (weight y <= weight x)%Z)
                 (consensus argsort filtered) /\
  (forall first rest e, consensus argsort filtered = first :: rest ->
     In e filtered -> (2 < weight e)%Z -> (weight e <= weight first)%Z) /\
  (forall argsort', sorts argsort' -> NoDup (map weight filtered) ->
     consensus argsort' filtered = consensus argsort filtered).
Proof.
  intros Hs. unfold consensus.
  set (above := filter (fun e => (2 <? weight e)%Z) filtered).
  pose proof (sort_values_desc_perm Hs above) as Hp.
  pose proof (sort_values_desc_sorted Hs above) as Hd.
  split; [exact Hp|]. split; [exact Hd|]. split.
  - intros first rest e E He Hw. rewrite E in Hp, Hd.
    assert (Hin : In e (first :: rest)).
    { apply (Permutation_in _ (Permutation_sym Hp)).
      apply filter_In. split; [exact He | now apply Z.ltb_lt]. }
    destruct Hin as [<-|Hin]; [lia|].
    inversion Hd as [|? ? _ Hall]; subst.
    rewrite Forall_forall in Hall. now apply Hall.
  - intros argsort' Hs' Hnd.
    pose proof (sort_values_desc_perm Hs' above) as Hp'.
    pose proof (sort_values_desc_sorted Hs' above) as Hd'.
    assert (Hnd' : NoDup (map weight above)).
    { unfold above. clear -Hnd.
      induction filtered as [|x l IH]; simpl; [constructor|].
      inversion Hnd as [|? ? Hx Hl]; subst.
      destruct (2 <? weight x)%Z; [|now apply IH].
      simpl. constructor; [|now apply IH].
      intros Hin. apply Hx. apply in_map_iff in Hin.
      destruct Hin as [y [Ey Hy]]. apply filter_In in Hy.
      apply in_map_iff. exists y. now split. }
    apply descending_unique; [| |exact Hd'|exact Hd].
    + apply (Permutation_NoDup (Permutation_map weight (Permutation_sym Hp'))).
      exact Hnd'.
    + exact (Permutation_trans Hp' (Permutation_sym Hp)).
Qed.

Lemma consensus_descending_witness :
  let filtered := [EdgeRow "A" "regulates" "B" 3 None;
                   EdgeRow "B" "regulates" "C" 1 None;
                   EdgeRow "A" "interacts" "C" 5 None] in
  consensus argsort_reversing filtered =
    [EdgeRow "A" "interacts" "C" 5 None; EdgeRow "A" "regulates" "B" 3 None] /\
  consensus argsort_stable filtered = consensus argsort_reversing filtered.
Proof.
  intros filtered. split; [reflexivity|].
  destruct (@consensus_descending argsort_reversing filtered
              argsort_reversing_sorts) as [_ [_ [_ H]]].
  apply (H argsort_stable argsort_stable_sorts).
  repeat constructor; simpl; intuition discriminate.
Defined.

(* ------------------------------------------------------------------ *)
(** ** Tab 2: what the result list shows *)

(** The heading (line 101) counts every match, the list below it shows
    the first 20 at most; an entry samples the relationships that leave
    the entity: the first of them in table order, 5 at most, and as many
    as there are when there are fewer. *)
Theorem search_shows_first_matches (limit : nat) (nodes : nodes_df)
  (edges : edges_df) (term : string) (n : nat) (ms : list entity_match) :
  search_limit limit nodes edges term = Some (Done (n, ms)) ->
  length ms = Nat.min limit n /\
  n <= length nodes /\
  forall m, In m ms ->
    length (sampleOutgoing m) = Nat.min 5 (outgoingCount m) /\
    (exists later, related_out edges (entity m) = sampleOutgoing m ++ later) /\
    (forall e, In e (sampleOutgoing m) -> In e edges /\ subject e = entity m).
Proof.
  unfold search_limit. destruct (String.eqb term ""); [discriminate|].
  rewrite matches_compiled.
  destruct (is_string_column (map node nodes)); [|discriminate].
  destruct (re_compile term) as [r| |]; try discriminate.
  intros [= <- <-]. unfold head.
  split; [now rewrite length_map, length_firstn|].
  split; [apply length_filter_le|].
  intros m Hm. apply in_map_iff in Hm. destruct Hm as [row [<- _]].
  unfold expander, head.
  cbn [sampleOutgoing outgoingCount entity].
  split; [apply length_firstn|]. split.
  - exists (skipn 5 (related_out edges (get "" (node row)))).
    symmetry. apply firstn_skipn.
  - intros e He. apply In_firstn in He. unfold related_out in He.
    apply filter_In in He. destruct He as [He Hs].
    now apply String.eqb_eq in Hs.
Qed.

Lemma search_shows_first_matches_witness :
  let edges := [EdgeRow "A" "regulates" "B" 3 None;
                EdgeRow "A" "interacts" "C" 5 None] in
  let m := EntityMatch "A" "entity" "Unknown" "Unknown" 2 0 edges in
  length [m] = Nat.min 20 1 /\
  1 <= length [mk_node "A"; mk_node "B"] /\
  forall m', In m' [m] ->
    length (sampleOutgoing m') = Nat.min 5 (outgoingCount m') /\
    (exists later, related_out edges (entity m') = sampleOutgoing m' ++ later) /\
    (forall e, In e (sampleOutgoing m') -> In e edges /\ subject e = entity m').
Proof.
  intros edges m.
  apply (@search_shows_first_matches 20 [mk_node "A"; mk_node "B"] edges "a" 1 [m]).
  reflexivity.
Defined.

(* ------------------------------------------------------------------ *)
(** ** Tab 4: bounds on the connectivity figure, and edge direction *)

Lemma ForallOrdPairs_impl (A : Type) (R S : A -> A -> Prop) (l : list A) :
  (forall a b, R a b -> S a b) -> ForallOrdPairs R l -> ForallOrdPairs S l.
Proof.
  intros H. induction 1 as [|a l Ha Hl IH]; constructor; [|exact IH].
  eapply Forall_impl; [|exact Ha]. intros b. apply H.
Qed.

Lemma length_concat_nonempty (A : Type) (ls : list (list A)) :
  Forall (fun L => L <> []) ls -> length ls <= length (concat ls).
Proof.
  induction 1 as [|L ls HL _ IH]; simpl; [lia|].
  rewrite length_app. destruct L; [congruence | simpl; lia].
Qed.

Lemma levels_from_count (U : graph) (u : string) :
  well_formed U = true -> In u (G_nodes U) ->
  length (levels_from U u) <= length (G_nodes U).
Proof.
  intros Hwf Hu.
  apply Nat.le_trans with (length (plain_bfs U u)).
  - unfold plain_bfs. apply length_concat_nonempty.
    unfold levels_from. apply bfs_levels_nonempty.
  - apply NoDup_incl_length;
      [apply (@plain_bfs_NoDup U u) | apply (@plain_bfs_incl U u Hwf Hu)].
Qed.

(** On a graph with a node, a component count that is shown is at least
    2 and at most the number of nodes, and a diameter that is shown is
    less than the number of nodes. *)
Theorem connectivity_figure_bounds (G : graph) :
  well_formed G = true ->
  G_nodes G <> [] ->
  (forall c, connectivity G = Ok (ComponentCount c) ->
             2 <= c <= length (G_nodes G)) /\
  (forall d, connectivity G = Ok (Diameter d) -> d < length (G_nodes G)).
Proof.
  intros Hwf Hne.
  set (U := to_undirected G).
  assert (Uwf : well_formed U = true) by exact Hwf.
  assert (Une : G_nodes U <> []) by exact Hne.
  destruct (@is_connected_one_component U Uwf Une) as [b [Eb [Hb1 Hb2]]].
  unfold connectivity. fold U. rewrite Eb. simpl.
  destruct b.
  - destruct (@diameter_connected U Uwf Une (proj1 Hb2 eq_refl)) as [d [Ed Hd]].
    rewrite Ed. simpl. split; [discriminate|].
    intros d' [= <-]. destruct Hd as [_ [u [v [Hu [Hv Hdist]]]]].
    apply (@levels_from_distance U u Uwf Hu) in Hdist.
    apply nth_In_length in Hdist.
    pose proof (@levels_from_count U u Uwf Hu). change (G_nodes U) with (G_nodes G) in *.
    lia.
  - split; [|discriminate].
    intros c [= <-].
    destruct (@number_connected_components_spec U Uwf) as [reps [Hl [Hi [Hp Hj]]]].
    assert (Hnd : NoDup reps).
    { apply NoDup_iff_ForallOrdPairs.
      eapply ForallOrdPairs_impl; [|exact Hp].
      intros a a' H ->. apply H. apply joined_refl. }
    assert (Hle : length reps <= length (G_nodes U))
      by (apply NoDup_incl_length; assumption).
    assert (Hge : 1 <= length reps).
    { destruct (G_nodes U) as [|v vs] eqn:Ev; [congruence|].
      destruct (Hj v (or_introl eq_refl)) as [r [Hr _]].
      destruct reps; [contradiction | simpl; lia]. }
    assert (Hne1 : number_connected_components U <> 1).
    { intros H. apply Hb1 in H. discriminate. }
    change (G_nodes U) with (G_nodes G) in *. lia.
Qed.

Lemma connectivity_figure_bounds_witness :
  let G := Graph ["A"; "B"; "C"; "D"] [("A", "B"); ("C", "B")] true in
  (forall c, connectivity G = Ok (ComponentCount c) ->
             2 <= c <= length (G_nodes G)) /\
  (forall d, connectivity G = Ok (Diameter d) -> d < length (G_nodes G)).
Proof.
  intros G.
  apply (connectivity_figure_bounds G); [reflexivity | discriminate].
Defined.

Lemma neighbors_reversed (G : graph) (u : string) :
  neighbors (reversed G) u = neighbors G u.
Proof.
  unfold neighbors, reversed. simpl.
  induction (G_edges G) as [|[a b] es IH]; simpl; [reflexivity|].
  rewrite IH. f_equal.
  destruct (String.eqb b u) eqn:Eb, (String.eqb a u) eqn:Ea; try reflexivity.
  apply String.eqb_eq in Eb, Ea. now subst.
Qed.

Section SameNeighbours.
Variables U1 U2 : graph.
Hypothesis same_nodes : G_nodes U1 = G_nodes U2.
Hypothesis same_neighbors : forall u, neighbors U1 u = neighbors U2 u.

Lemma bfs_levels_same (fuel : nat) (seen level : list string) :
  bfs_levels fuel U1 seen level = bfs_levels fuel U2 seen level.
Proof.
  revert seen level. induction fuel as [|fuel IH]; intros seen level;
    [reflexivity|].
  cbn [bfs_levels]. destruct level as [|v level]; [reflexivity|].
  rewrite (flat_map_ext _ _ same_neighbors). now rewrite IH.
Qed.

Lemma levels_from_same (s : string) : levels_from U1 s = levels_from U2 s.
Proof. unfold levels_from. rewrite same_nodes. apply bfs_levels_same. Qed.

Lemma components_from_same (seen vs : list string) :
  components_from U1 seen vs = components_from U2 seen vs.
Proof.
  revert seen. induction vs as [|v vs IH]; intros seen; simpl; [reflexivity|].
  unfold plain_bfs. rewrite levels_from_same.
  destruct (mem v seen); now rewrite IH.
Qed.

Lemma map_result_ext (A B : Type) (f g : A -> result B) (l : list A) :
  (forall a, f a = g a) -> map_result f l = map_result g l.
Proof.
  intros H. induction l as [|a l IH]; simpl; [reflexivity|].
  now rewrite H, IH.
Qed.

Lemma connectivity_same (G1 G2 : graph) :
  to_undirected G1 = U1 -> to_undirected G2 = U2 ->
  connectivity G1 = connectivity G2.
Proof.
  intros E1 E2. unfold connectivity. rewrite E1, E2.
  assert (Hc : is_connected U1 = is_connected U2).
  { unfold is_connected, plain_bfs. rewrite same_nodes.
    case (G_nodes U2); [reflexivity|].
    intros s rest. now rewrite levels_from_same. }
  assert (Hd : diameter U1 = diameter U2).
  { unfold diameter. rewrite same_nodes. f_equal.
    apply map_result_ext. intros v. unfold eccentricity.
    now rewrite levels_from_same, same_nodes. }
  assert (Hn : number_connected_components U1 = number_connected_components U2).
  { unfold number_connected_components, connected_components.
    now rewrite same_nodes, components_from_same. }
  now rewrite Hc, Hd, Hn.
Qed.
End SameNeighbours.

Lemma length_filter_map (A B : Type) (p : B -> bool) (g : A -> B) (l : list A) :
  length (filter p (map g l)) = length (filter (fun a => p (g a)) l).
Proof.
  induction l as [|a l IH]; simpl; [reflexivity|].
  destruct (p (g a)); simpl; now rewrite IH.
Qed.

(** The direction of the edges has no part in the connectivity figure
    nor in the degrees: with every edge turned round both are the same,
    and the figure is the same for a graph loaded as undirected. *)
Theorem edge_direction_is_ignored (G : graph) :
  connectivity (reversed G) = connectivity G /\
  connectivity (to_undirected G) = connectivity G /\
  forall v, degree (reversed G) v = degree G v.
Proof.
  split; [|split].
  - apply (@connectivity_same (to_undirected (reversed G)) (to_undirected G));
      try reflexivity.
    intros u. apply (neighbors_reversed G u).
  - reflexivity.
  - intros v. unfold degree, reversed. simpl.
    rewrite !length_filter_map. simpl. lia.
Qed.

(* ------------------------------------------------------------------ *)
(** ** The scenarios of the specification, section 8 *)

(** Entities [A], [B], [C]; [A -> B] (regulates, 3), [B -> C]
    (regulates, 1), [A -> C] (interacts, 5). *)
Example scenario_relationships :
  let AB := EdgeRow "A" "regulates" "B" 3 None in
  let BC := EdgeRow "B" "regulates" "C" 1 None in
  let AC := EdgeRow "A" "interacts" "C" 5 None in
  let edges := [AB; BC; AC] in
  max_weight edges = Ok 5%Z /\
  filtered_edges edges "All" 2 = [AB; AC] /\
  high_confidence argsort_stable (filtered_edges edges "All" 1) = [AC; AB] /\
  high_confidence argsort_reversing (filtered_edges edges "All" 1) = [AC; AB].
Proof. repeat split. Qed.

(** A single entity [D] and no relationship. *)
Example scenario_isolated_entity :
  let G := Graph ["D"] [] true in
  connectivity G = Ok (Diameter 0) /\
  (density G == 0)%Q /\
  search [mk_node "D"] [] "d" =
  Some (Done (1, [EntityMatch "D" "entity" "Unknown" "Unknown" 0 0 []])).
Proof. repeat split. Qed.
